(** * Layout, connective synthesis and animation composition of
      [manim_ml.neural_network.neural_network]

    A shallow embedding of the [NeuralNetwork] diagram class and of its
    [FeedForwardNeuralNetwork] subclass.

    Modelling conventions.
    - Python objects live in a store and are handled by reference: layers and
      connective layers are mutated in place ([move_to], [shift],
      [set_z_index]) and the same object is reachable from several groups.
    - Python floats are idealised as exact rationals ([Q]); equality of
      coordinates is [Qeq].
    - A method is a computation in a state-and-exception monad over the store.
    - manim itself ([VGroup], [AnimationGroup], [Create], [config]) is an
      external library; the few operations the class calls are modelled after
      its public behaviour. *)

From Stdlib Require Import QArith Qminmax Lqa.
From stdpp Require Import base list strings.

(** ** Points and bounding boxes *)

(** A point of the scene, a numpy array of three floats. *)
Record Point := mkPoint { px : Q; py : Q; pz : Q }.

Definition ORIGIN : Point := mkPoint 0 0 0.

Definition padd (p q : Point) : Point :=
  mkPoint (px p + px q) (py p + py q) (pz p + pz q).

Definition psub (p q : Point) : Point :=
  mkPoint (px p - px q) (py p - py q) (pz p - pz q).

(** Coordinate-wise equality of rationals. *)
Definition peq (p q : Point) : Prop :=
  (px p == px q)%Q /\ (py p == py q)%Q /\ (pz p == pz q)%Q.

(** What the class reads of a renderable object: its bounding box (centre and
    extents), its render depth, and the run times of the animations the object
    supplies ([make_forward_pass_animation()] and [Create(obj)]). *)
Record Mobject := mkMobject {
  center : Point;
  width : Q;
  height : Q;
  depth : Q;
  z_index : Z;
  forward_pass_run_time : Q;
  create_run_time : Q
}.

(** [Mobject.shift(vector)] *)
Definition shift (v : Point) (m : Mobject) : Mobject :=
  mkMobject (padd (center m) v) (width m) (height m) (depth m) (z_index m)
            (forward_pass_run_time m) (create_run_time m).

(** [Mobject.get_center()] *)
Definition get_center (m : Mobject) : Point := center m.

(** [Mobject.move_to(point)]: manim shifts the object by the difference between
    the target and the current centre. *)
Definition move_to (p : Point) (m : Mobject) : Mobject :=
  shift (psub p (get_center m)) m.

(** [Mobject.set_z_index(z)] on one object. *)
Definition set_z_index (z : Z) (m : Mobject) : Mobject :=
  mkMobject (center m) (width m) (height m) (depth m) z
            (forward_pass_run_time m) (create_run_time m).

(** ** Classes and [isinstance] *)

(** A Python class, by its qualified name and the names of its proper
    ancestors. *)
Record PyClass := mkClass { cls_name : string; cls_ancestors : list string }.

Definition FeedForwardLayer : string :=
  "manim_ml.neural_network.layers.FeedForwardLayer".
Definition ImageLayer : string :=
  "manim_ml.neural_network.layers.ImageLayer".

Definition issubclass (c : PyClass) (target : string) : bool :=
  bool_decide (target ∈ cls_name c :: cls_ancestors c).

(** [str(type(obj))], as interpolated by an f-string. *)
Definition type_repr (c : PyClass) : string :=
  "<class '" +:+ cls_name c +:+ "'>".

(** ** Layers and connective layers *)

(** A reference is a position in a store. *)
Abbreviation ref := nat (only parsing).

(** Modelled from the spec: the layer classes of
    [manim_ml.neural_network.layers] are not part of this module.  A layer is
    an opaque renderable with a type tag, a bounding box, a render depth and a
    forward-pass animation. *)
Record Layer := mkLayer {
  layer_class : PyClass;
  layer_mob : Mobject
}.

Definition isinstance (l : Layer) (target : string) : bool :=
  issubclass (layer_class l) target.

Definition map_layer (f : Mobject -> Mobject) (l : Layer) : Layer :=
  mkLayer (layer_class l) (f (layer_mob l)).

Inductive ConnectiveKind := FeedForwardToFeedForward | ImageToFeedForward.

(** Modelled from the spec: the classes of
    [manim_ml.neural_network.connective_layers] are not part of this module.
    A connective layer keeps non-owning references to the two layers it
    bridges, which it reads and never mutates; [conn_style] is the keyword
    argument it was built with ([edge_width] or [dot_radius]). *)
Record Connective := mkConnective {
  conn_kind : ConnectiveKind;
  input_layer : ref;
  output_layer : ref;
  conn_style : Q;
  conn_mob : Mobject
}.

Definition map_connective (f : Mobject -> Mobject) (c : Connective) : Connective :=
  mkConnective (conn_kind c) (input_layer c) (output_layer c) (conn_style c)
               (f (conn_mob c)).

(** An element of a group that mixes layers and connective layers. *)
Inductive MobRef := LayerRef (r : ref) | ConnectiveRef (r : ref).

Global Instance MobRef_eq_dec : EqDecision MobRef.
Proof. solve_decision. Defined.

(** ** The store and the monad of methods *)

(** Objects are allocated at the end of their store and addressed by position;
    [warnings] is the log of messages passed to [warnings.warn]. *)
Record World := mkWorld {
  layers : list Layer;
  connectives : list Connective;
  warnings : list string
}.

(** [DanglingReference] has no Python counterpart: a reference outside the
    store cannot be built in Python.  The model reports it apart from
    [IndexError] so that the two are never confused. *)
Inductive exn := IndexError | DanglingReference.

Inductive Outcome (A : Type) := Returns (a : A) | Raises (e : exn).
Arguments Returns {A} a.
Arguments Raises {A} e.

Definition M (A : Type) : Type := World -> Outcome A * World.

Definition ret {A} (a : A) : M A := fun w => (Returns a, w).

Definition raise {A} (e : exn) : M A := fun w => (Raises e, w).

Definition bind {A B} (m : M A) (k : A -> M B) : M B :=
  fun w => match m w with
           | (Returns a, w') => k a w'
           | (Raises e, w') => (Raises e, w')
           end.

Notation "'let!' x ':=' m 'in' k" := (bind m (fun x => k))
  (at level 10, x pattern, m at level 100, k at level 200).
Notation "m ';;;' k" := (bind m (fun _ => k))
  (at level 100, k at level 200, right associativity).

(** [for x in xs: body(x)] *)
Fixpoint for_each {A} (xs : list A) (body : A -> M unit) : M unit :=
  match xs with
  | [] => ret tt
  | x :: xs' => body x ;;; for_each xs' body
  end.

(** A loop that threads its local variables [acc] through the iterations. *)
Fixpoint for_fold {A St} (xs : list A) (body : A -> St -> M St) (acc : St)
    : M St :=
  match xs with
  | [] => ret acc
  | x :: xs' => let! acc' := body x acc in for_fold xs' body acc'
  end.

(** [range(lo, hi)]; empty when [hi <= lo]. *)
Definition range (lo hi : Z) : list Z :=
  map (fun k => (lo + Z.of_nat k)%Z) (seq 0 (Z.to_nat (hi - lo))).

(** Store access. *)
Definition get_layer (r : ref) : M Layer :=
  fun w => match layers w !! r with
           | Some l => (Returns l, w)
           | None => (Raises DanglingReference, w)
           end.

Definition get_connective (r : ref) : M Connective :=
  fun w => match connectives w !! r with
           | Some c => (Returns c, w)
           | None => (Raises DanglingReference, w)
           end.

Definition update_layer (r : ref) (f : Mobject -> Mobject) : M unit :=
  let! _ := get_layer r in
  fun w => (Returns tt,
            mkWorld (alter (map_layer f) r (layers w)) (connectives w) (warnings w)).

Definition update_connective (r : ref) (f : Mobject -> Mobject) : M unit :=
  let! _ := get_connective r in
  fun w => (Returns tt,
            mkWorld (layers w) (alter (map_connective f) r (connectives w)) (warnings w)).

Definition new_layer (l : Layer) : M ref :=
  fun w => (Returns (length (layers w)),
            mkWorld (layers w ++ [l]) (connectives w) (warnings w)).

Definition new_connective (c : Connective) : M ref :=
  fun w => (Returns (length (connectives w)),
            mkWorld (layers w) (connectives w ++ [c]) (warnings w)).

(** [warnings.warn(message)]: the message is recorded and execution goes on. *)
Definition warn (message : string) : M unit :=
  fun w => (Returns tt, mkWorld (layers w) (connectives w) (warnings w ++ [message])).

(** ** Groups *)

(** [group[i]] for an integer [i]: Python list indexing on the submobjects,
    negative indices counting from the end. *)
Definition getitem {A} (group : list A) (i : Z) : M A :=
  let n := Z.of_nat (length group) in
  let j := if (i <? 0)%Z then (i + n)%Z else i in
  if ((j <? 0)%Z || (n <=? j)%Z)%bool then raise IndexError
  else match group !! Z.to_nat j with
       | Some x => ret x
       | None => raise IndexError
       end.

(** [group[:-1]] *)
Definition slice_but_last {A} (group : list A) : list A :=
  take (length group - 1) group.

(** [list_update(l1, l2)] of manim's utilities, behind [Mobject.add]: members
    of [l1] that occur in [l2] are dropped and [l2] is appended. *)
Definition list_update {A} `{EqDecision A} (l1 l2 : list A) : list A :=
  filter (fun e => e ∉ l2) l1 ++ l2.

(** [group.add(m)] *)
Definition add {A} `{EqDecision A} (group : list A) (m : A) : list A :=
  list_update group [m].

(** The constructor of [VGroup]: [add] on an empty group.  Current manim keeps
    one occurrence of a repeated argument; for arguments without repetition
    every release returns them as they are. *)
Definition VGroup {A} `{EqDecision A} (mobjects : list A) : list A :=
  list_update [] (remove_dups mobjects).

(** [enumerate(group)] *)
Definition enumerate {A} (group : list A) : list (Z * A) :=
  zip (map Z.of_nat (seq 0 (length group))) group.

(** ** Bounding box of a group *)

(** Centre of the smallest axis-aligned interval containing the intervals
    [c - e/2, c + e/2]; manim returns the origin for a group without points. *)
Definition interval_center (ivs : list (Q * Q)) : Q :=
  match ivs with
  | [] => 0
  | (c, e) :: rest =>
      let lo := foldl (fun acc '(c', e') => Qmin acc (c' - e' / 2)) (c - e / 2) rest in
      let hi := foldl (fun acc '(c', e') => Qmax acc (c' + e' / 2)) (c + e / 2) rest in
      (lo + hi) / 2
  end%Q.

Definition bounding_box_center (mobs : list Mobject) : Point :=
  mkPoint (interval_center (map (fun m => (px (center m), width m)) mobs))
          (interval_center (map (fun m => (py (center m), height m)) mobs))
          (interval_center (map (fun m => (pz (center m), depth m)) mobs)).

Definition get_mob (m : MobRef) : M Mobject :=
  match m with
  | LayerRef r => let! l := get_layer r in ret (layer_mob l)
  | ConnectiveRef r => let! c := get_connective r in ret (conn_mob c)
  end.

Definition update_mob (m : MobRef) (f : Mobject -> Mobject) : M unit :=
  match m with
  | LayerRef r => update_layer r f
  | ConnectiveRef r => update_connective r f
  end.

(** [group.get_center()] *)
Definition group_get_center (group : list MobRef) : M Point :=
  let! mobs := for_fold group
                 (fun m acc => let! x := get_mob m in ret (acc ++ [x])) [] in
  ret (bounding_box_center mobs).

(** [group.move_to(point)]: every member is shifted by the same vector. *)
Definition group_move_to (group : list MobRef) (p : Point) : M unit :=
  let! c := group_get_center group in
  for_each group (fun m => update_mob m (shift (psub p c))).

(** [group.set_z_index(z)] for a group of layers and for a group of
    connective layers. *)
Definition layers_set_z_index (group : list ref) (z : Z) : M unit :=
  for_each group (fun r => update_layer r (set_z_index z)).

Definition connectives_set_z_index (group : list ref) (z : Z) : M unit :=
  for_each group (fun r => update_connective r (set_z_index z)).

(** ** Animations *)

#[local] Set Warnings "-register-all".

(** The animations the class handles: the forward-pass animation an object
    supplies, manim's [Create] of an object, and manim's [AnimationGroup]. *)
Inductive Animation :=
| ForwardPass (m : MobRef) (run_time : Q)
| Create (m : MobRef) (run_time : Q)
| AnimationGroup (animations : list Animation) (run_time : Q) (lag_ratio : Q).

Definition get_run_time (a : Animation) : Q :=
  match a with
  | ForwardPass _ t => t
  | Create _ t => t
  | AnimationGroup _ t _ => t
  end.

(** [AnimationGroup.build_animations_with_timings]: each animation with its
    start and end time on the group's own clock; the next animation starts at
    [(1 - lag_ratio) * start + lag_ratio * end]. *)
Fixpoint build_animations_with_timings (lag_ratio curr_time : Q)
    (animations : list Animation) : list (Animation * Q * Q) :=
  match animations with
  | [] => []
  | anim :: rest =>
      let start_time := curr_time in
      let end_time := (start_time + get_run_time anim)%Q in
      (anim, start_time, end_time)
        :: build_animations_with_timings lag_ratio
             ((1 - lag_ratio) * start_time + lag_ratio * end_time)%Q rest
  end.

Definition max_end_time (timings : list (Animation * Q * Q)) : Q :=
  match map snd timings with
  | [] => 0%Q
  | e :: es => foldl Qmax e es
  end.

(** [AnimationGroup.init_run_time]: the requested run time, or the largest end
    time when none is requested. *)
Definition init_run_time (lag_ratio : Q) (animations : list Animation)
    (run_time : option Q) : Q :=
  match run_time with
  | None => max_end_time (build_animations_with_timings lag_ratio 0 animations)
  | Some t => t
  end.

(** The constructor of [AnimationGroup], with its keyword arguments
    [run_time] and [lag_ratio].  The constructor belongs to manim, which may
    refuse a run time that is not positive; that check is not part of the
    model, and the statements that promise a returned group are made for a
    positive run time only. *)
Definition new_AnimationGroup (animations : list Animation)
    (run_time : option Q) (lag_ratio : Q) : Animation :=
  AnimationGroup animations (init_run_time lag_ratio animations run_time) lag_ratio.

(** [layer.make_forward_pass_animation()] and its counterpart on a connective
    layer; [Create(mobject)]. *)
Definition layer_make_forward_pass_animation (r : ref) : M Animation :=
  let! l := get_layer r in
  ret (ForwardPass (LayerRef r) (forward_pass_run_time (layer_mob l))).

Definition connective_make_forward_pass_animation (r : ref) : M Animation :=
  let! c := get_connective r in
  ret (ForwardPass (ConnectiveRef r) (forward_pass_run_time (conn_mob c))).

Definition new_Create (m : MobRef) : M Animation :=
  let! x := get_mob m in ret (Create m (create_run_time x)).

(** ** The class [NeuralNetwork] *)

Definition Color := string.
Definition WHITE : Color := "WHITE".
Definition RED : Color := "RED".
Definition BLUE : Color := "BLUE".

Record NeuralNetwork := mkNeuralNetwork {
  input_layers : list ref;
  edge_width : Q;
  edge_color : Color;
  layer_spacing : Q;
  animation_dot_color : Color;
  dot_radius : Q;
  connective_layers : list ref;
  all_layers : list MobRef
}.

Definition len {A} (group : list A) : Z := Z.of_nat (length group).

Definition unimplemented_connection (current_layer next_layer : Layer) : string :=
  "Warning: unimplemented connection for layer types: "
    +:+ type_repr (layer_class current_layer)
    +:+ " and " +:+ type_repr (layer_class next_layer).

(** The keyword arguments [FeedForwardNeuralNetwork] forwards to
    [NeuralNetwork.__init__]; an absent one takes that constructor's
    default. *)
Record Kwargs := mkKwargs {
  kw_edge_color : option Color;
  kw_layer_spacing : option Q;
  kw_animation_dot_color : option Color;
  kw_edge_width : option Q;
  kw_dot_radius : option Q
}.

(** ** Sample scenes, used by the examples after the proofs *)

Definition sample_mob (y w : Q) : Mobject :=
  mkMobject (mkPoint 0 y 0) w 1 0 0 1 1.

Definition sample_feed_forward (y w : Q) : Layer :=
  mkLayer (mkClass FeedForwardLayer []) (sample_mob y w).

Definition sample_image (y w : Q) : Layer :=
  mkLayer (mkClass ImageLayer []) (sample_mob y w).

(** An image layer followed by two feed-forward layers: both adjacencies
    have a supported pairing. *)
Definition supported_scene : World :=
  mkWorld [sample_image 0 2; sample_feed_forward 0 1; sample_feed_forward 0 1]
          [] [].

(** Feed-forward, image, feed-forward, on three different rows: the first
    adjacency has no supported pairing, the second has. *)
Definition mixed_scene : World :=
  mkWorld [sample_feed_forward 0 1; sample_image 1 2; sample_feed_forward 2 1]
          [] [].

(** Stand-ins for the renderable parts built by the constructors of the
    layer and connective-layer modules. *)
Definition sample_connective_mob (a b : Layer) (style : Q) : Mobject :=
  mkMobject (mkPoint ((px (center (layer_mob a)) + px (center (layer_mob b))) / 2)
                     0 0)
            (px (center (layer_mob b)) - px (center (layer_mob a))) 1 0 0 1 1.

Definition sample_layer_mob (num_nodes : Z) (node_color : Color)
    (node_radius : Q) : Mobject :=
  mkMobject ORIGIN (2 * node_radius) (inject_Z num_nodes * 3 * node_radius) 0 0 1 1.

Definition sample_network (ls : list ref) : NeuralNetwork :=
  mkNeuralNetwork ls 1.5 WHITE 0.8 RED 0.03 [] [].

Definition no_kwargs : Kwargs := mkKwargs None None None None None.

Section Methods.

(** [config.frame_width], supplied by the rendering environment. *)
Variable frame_width : Q.

(** The renderable parts built by the constructors of
    [manim_ml.neural_network.connective_layers] and
    [manim_ml.neural_network.layers], which this module only calls. *)
Variable FeedForwardToFeedForward_mob : Layer -> Layer -> Q -> Mobject.
Variable ImageToFeedForward_mob : Layer -> Layer -> Q -> Mobject.
Variable FeedForwardLayer_mob : Z -> Color -> Q -> Mobject.

Definition new_FeedForwardToFeedForward (current_layer next_layer : ref)
    (edge_width : Q) : M ref :=
  let! cl := get_layer current_layer in
  let! nl := get_layer next_layer in
  new_connective
    (mkConnective FeedForwardToFeedForward current_layer next_layer edge_width
                  (FeedForwardToFeedForward_mob cl nl edge_width)).

Definition new_ImageToFeedForward (current_layer next_layer : ref)
    (dot_radius : Q) : M ref :=
  let! cl := get_layer current_layer in
  let! nl := get_layer next_layer in
  new_connective
    (mkConnective ImageToFeedForward current_layer next_layer dot_radius
                  (ImageToFeedForward_mob cl nl dot_radius)).

Definition new_FeedForwardLayer (num_nodes : Z) (node_color : Color)
    (node_radius : Q) : M ref :=
  new_layer (mkLayer (mkClass FeedForwardLayer [])
                     (FeedForwardLayer_mob num_nodes node_color node_radius)).

Definition _place_layers (self : NeuralNetwork) : M unit :=
  for_each (range 1 (len (input_layers self))) (fun layer_index =>
    let! previous_layer := getitem (input_layers self) (layer_index - 1) in
    let! current_layer := getitem (input_layers self) layer_index in
    let! previous := get_layer previous_layer in
    let! current := get_layer current_layer in
    let spacing := (frame_width * 0.05
                    + (width (layer_mob previous) / 2
                       + width (layer_mob current) / 2))%Q in
    update_layer current_layer (move_to (get_center (layer_mob previous))) ;;;
    update_layer current_layer (shift (mkPoint spacing 0 0))) ;;;
  layers_set_z_index (input_layers self) 2.

Definition _construct_connective_layers (self : NeuralNetwork)
    : M (list ref * list MobRef) :=
  let! groups :=
    for_fold (range 0 (len (input_layers self) - 1))
      (fun layer_index '(connective_layers, all_layers) =>
         let! current_layer := getitem (input_layers self) layer_index in
         let all_layers := add all_layers (LayerRef current_layer) in
         let! next_layer := getitem (input_layers self) (layer_index + 1) in
         let! current := get_layer current_layer in
         let! next := get_layer next_layer in
         if isinstance current FeedForwardLayer && isinstance next FeedForwardLayer
         then
           let! edge_layer :=
             new_FeedForwardToFeedForward current_layer next_layer
                                          (edge_width self) in
           ret (add connective_layers edge_layer,
                add all_layers (ConnectiveRef edge_layer))
         else if isinstance current ImageLayer && isinstance next FeedForwardLayer
         then
           let! image_to_feedforward :=
             new_ImageToFeedForward current_layer next_layer (dot_radius self) in
           ret (add connective_layers image_to_feedforward,
                add all_layers (ConnectiveRef image_to_feedforward))
         else
           warn (unimplemented_connection current next) ;;;
           ret (connective_layers, all_layers))
      ([], []) in
  let '(connective_layers, all_layers) := groups in
  let! final_layer := getitem (input_layers self) (-1) in
  let all_layers := add all_layers (LayerRef final_layer) in
  connectives_set_z_index connective_layers 0 ;;;
  ret (connective_layers, all_layers).

Definition NeuralNetwork_init (input_layers : list ref) (edge_color : Color)
    (layer_spacing : Q) (animation_dot_color : Color) (edge_width dot_radius : Q)
    : M NeuralNetwork :=
  let self := mkNeuralNetwork (VGroup input_layers) edge_width edge_color
                              layer_spacing animation_dot_color dot_radius [] [] in
  _place_layers self ;;;
  let! groups := _construct_connective_layers self in
  let '(connective_layers, all_layers) := groups in
  let self := mkNeuralNetwork (VGroup input_layers) edge_width edge_color
                              layer_spacing animation_dot_color dot_radius
                              connective_layers all_layers in
  group_move_to all_layers ORIGIN ;;;
  ret self.

(** An absent argument takes the default of the signature:
    [run_time=10], [passing_flash=True]. *)
Definition make_forward_pass_animation (self : NeuralNetwork)
    (run_time : option Q) (passing_flash : option bool) : M Animation :=
  let run_time := default 10%Q run_time in
  let passing_flash := default true passing_flash in
  let! all_animations :=
    for_fold (enumerate (slice_but_last (input_layers self)))
      (fun '(layer_index, layer) all_animations =>
         let! layer_forward_pass := layer_make_forward_pass_animation layer in
         let all_animations := all_animations ++ [layer_forward_pass] in
         let! connective_layer := getitem (connective_layers self) layer_index in
         let! connective_forward_pass :=
           connective_make_forward_pass_animation connective_layer in
         ret (all_animations ++ [connective_forward_pass]))
      [] in
  let! last_layer := getitem (input_layers self) (-1) in
  let! last_layer_forward_pass := layer_make_forward_pass_animation last_layer in
  let all_animations := all_animations ++ [last_layer_forward_pass] in
  ret (new_AnimationGroup all_animations (Some run_time) 1).

Definition _create_override (self : NeuralNetwork) : M Animation :=
  let! animations :=
    for_fold (all_layers self)
      (fun layer animations =>
         let! animation := new_Create layer in
         ret (animations ++ [animation]))
      [] in
  ret (new_AnimationGroup animations None 1).

Definition FeedForwardNeuralNetwork_init (layer_node_count : list Z)
    (node_radius : Q) (node_color : Color) (kwargs : Kwargs) : M NeuralNetwork :=
  let! layers :=
    for_fold layer_node_count
      (fun num_nodes layers =>
         let! layer := new_FeedForwardLayer num_nodes node_color node_radius in
         ret (layers ++ [layer]))
      [] in
  NeuralNetwork_init layers
    (default WHITE (kw_edge_color kwargs))
    (default 0.8%Q (kw_layer_spacing kwargs))
    (default RED (kw_animation_dot_color kwargs))
    (default 1.5%Q (kw_edge_width kwargs))
    (default 0.03%Q (kw_dot_radius kwargs)).

(** ** Vocabulary of the statements *)

(** The connective variant the two [isinstance] tests of
    [_construct_connective_layers] select, first match first. *)
Definition dispatch (current next : Layer) : option ConnectiveKind :=
  if isinstance current FeedForwardLayer && isinstance next FeedForwardLayer
  then Some FeedForwardToFeedForward
  else if isinstance current ImageLayer && isinstance next FeedForwardLayer
  then Some ImageToFeedForward
  else None.

(** The adjacent pairs [(Layer[i], Layer[i+1])] of a chain. *)
Definition adjacencies (ls : list ref) : list (ref * ref) := zip ls (tail ls).

Definition dispatch_at (L : list Layer) (p : ref * ref) : option ConnectiveKind :=
  match L !! p.1, L !! p.2 with
  | Some a, Some b => dispatch a b
  | _, _ => None
  end.

(** The connective layer built for an adjacency, if its pairing is
    supported. *)
Definition connective_for (L : list Layer) (self : NeuralNetwork)
    (p : ref * ref) : option Connective :=
  match L !! p.1, L !! p.2 with
  | Some a, Some b =>
      match dispatch a b with
      | Some FeedForwardToFeedForward =>
          Some (mkConnective FeedForwardToFeedForward p.1 p.2 (edge_width self)
                             (FeedForwardToFeedForward_mob a b (edge_width self)))
      | Some ImageToFeedForward =>
          Some (mkConnective ImageToFeedForward p.1 p.2 (dot_radius self)
                             (ImageToFeedForward_mob a b (dot_radius self)))
      | None => None
      end
  | _, _ => None
  end.

(** The message logged for an adjacency, if its pairing is unsupported. *)
Definition diagnostic_for (L : list Layer) (p : ref * ref) : option string :=
  match L !! p.1, L !! p.2 with
  | Some a, Some b =>
      match dispatch a b with
      | Some _ => None
      | None => Some (unimplemented_connection a b)
      end
  | _, _ => None
  end.

(** What the loop of [_construct_connective_layers] adds to [all_layers]:
    each left layer, followed by its connective layer when there is one;
    [base] is the reference the next connective layer receives. *)
Fixpoint display (L : list Layer) (base : nat) (ps : list (ref * ref))
    : list MobRef :=
  match ps with
  | [] => []
  | p :: ps' =>
      match dispatch_at L p with
      | Some _ => LayerRef p.1 :: ConnectiveRef base :: display L (S base) ps'
      | None => LayerRef p.1 :: display L base ps'
      end
  end.

(** The interleaving [L0, C0, L1, C1, ..., L_{N-1}] of the specification. *)
Fixpoint interleave {A} (ls cs : list A) : list A :=
  match ls, cs with
  | l :: ls', c :: cs' => l :: c :: interleave ls' cs'
  | _, _ => ls
  end.

(** Two renderable parts that differ at most by their position. *)
Definition mob_moved (m m' : Mobject) : Prop :=
  width m = width m' /\ height m = height m' /\ depth m = depth m'
  /\ z_index m = z_index m'
  /\ forward_pass_run_time m = forward_pass_run_time m'
  /\ create_run_time m = create_run_time m'.

(** Two renderable parts that differ at most by their position and their
    render depth. *)
Definition mob_same_shape (m m' : Mobject) : Prop :=
  width m = width m' /\ height m = height m' /\ depth m = depth m'
  /\ forward_pass_run_time m = forward_pass_run_time m'
  /\ create_run_time m = create_run_time m'.

Definition layer_same_shape (l l' : Layer) : Prop :=
  layer_class l = layer_class l' /\ mob_same_shape (layer_mob l) (layer_mob l').

Definition layer_moved (l l' : Layer) : Prop :=
  layer_class l = layer_class l' /\ mob_moved (layer_mob l) (layer_mob l').

Definition connective_moved (c c' : Connective) : Prop :=
  conn_kind c = conn_kind c' /\ input_layer c = input_layer c'
  /\ output_layer c = output_layer c' /\ conn_style c = conn_style c'
  /\ mob_moved (conn_mob c) (conn_mob c').

(** Two stores with the same objects, some of them moved. *)
Definition moved (w w' : World) : Prop :=
  Forall2 layer_moved (layers w) (layers w')
  /\ Forall2 connective_moved (connectives w) (connectives w')
  /\ warnings w = warnings w'.

(** The horizontal offset [_place_layers] puts between two layers. *)
Definition spacing (previous current : Layer) : Q :=
  (frame_width * 0.05
   + (width (layer_mob previous) / 2 + width (layer_mob current) / 2))%Q.

(** A chain of distinct layers, all of them in the store. *)
Definition chain (w : World) (ls : list ref) : Prop :=
  NoDup ls /\ Forall (fun r => r < length (layers w)) ls.

(** Successive entries of a timeline: each starts when the previous one
    ends. *)
Definition back_to_back (timings : list (Animation * Q * Q)) : Prop :=
  forall i a s e a' s' e',
    timings !! i = Some (a, s, e) -> timings !! S i = Some (a', s', e') ->
    (s' == e)%Q.

Definition sum_run_times (animations : list Animation) : Q :=
  foldr Qplus 0%Q (map get_run_time animations).

(** [current] sits at [previous]'s centre moved right by their spacing. *)
Definition placed_after (previous current : Layer) : Prop :=
  peq (center (layer_mob current))
      (padd (center (layer_mob previous))
            (mkPoint (spacing previous current) 0 0)).

(** Invariant of the loop of [_place_layers] once the layers of indices
    [1..i] are placed: nothing but positions changed, layers of a higher
    index and the first layer are where they were, and each placed layer
    sits after its predecessor. *)
Definition place_inv (w0 : World) (ls : list ref) (i : nat) (w : World) : Prop :=
  connectives w = connectives w0 /\ warnings w = warnings w0
  /\ Forall2 layer_moved (layers w0) (layers w)
  /\ (forall r, r ∉ take (S i) ls -> layers w !! r = layers w0 !! r)
  /\ (forall r, ls !! 0 = Some r -> layers w !! r = layers w0 !! r)
  /\ (forall j p c, j < i -> ls !! j = Some p -> ls !! S j = Some c ->
        exists lp lc, layers w !! p = Some lp /\ layers w !! c = Some lc
                      /\ placed_after lp lc).

(** A group member that is in the store. *)
Definition live (w : World) (m : MobRef) : Prop :=
  match m with
  | LayerRef r => r < length (layers w)
  | ConnectiveRef r => r < length (connectives w)
  end.

(** [a] is the creation animation of the group member [m]. *)
Definition creation_of (w : World) (m : MobRef) (a : Animation) : Prop :=
  exists x, get_mob m w = (Returns x, w) /\ a = Create m (create_run_time x).

(** Invariant of the loop of [_construct_connective_layers] after the first
    [i] adjacencies: the store gained the connective layers and the messages
    of these adjacencies, and the two local groups hold what was built. *)
Definition construct_inv (w0 : World) (self : NeuralNetwork) (i : nat)
    (acc : list ref * list MobRef) (w : World) : Prop :=
  let ps := take i (adjacencies (input_layers self)) in
  layers w = layers w0
  /\ connectives w = connectives w0 ++ omap (connective_for (layers w0) self) ps
  /\ warnings w = warnings w0 ++ omap (diagnostic_for (layers w0)) ps
  /\ acc.1 = seq (length (connectives w0))
                 (length (omap (dispatch_at (layers w0)) ps))
  /\ acc.2 = display (layers w0) (length (connectives w0)) ps.

(** The adjacencies with a supported pairing, each with the variant its
    pairing selects. *)
Definition supported_pairs (L : list Layer) (ps : list (ref * ref))
    : list (ref * ref * ConnectiveKind) :=
  omap (fun p => match dispatch_at L p with
                 | Some k => Some (p, k)
                 | None => None
                 end) ps.

(** [c] is the connective layer of the diagram [self] built for the
    adjacency [pk.1], of the variant [pk.2], and pushed to depth 0. *)
Definition built_for (self : NeuralNetwork) (pk : ref * ref * ConnectiveKind)
    (c : Connective) : Prop :=
  conn_kind c = pk.2 /\ input_layer c = pk.1.1 /\ output_layer c = pk.1.2
  /\ conn_style c = match pk.2 with
                    | FeedForwardToFeedForward => edge_width self
                    | ImageToFeedForward => dot_radius self
                    end
  /\ z_index (conn_mob c) = 0%Z.

(** The reading of the layout that leaves every layer on its own row: each
    layer keeps its vertical and depth coordinates. *)
Definition layout_keeps_rows (self : NeuralNetwork) (w : World) : Prop :=
  forall w', _place_layers self w = (Returns tt, w') ->
  forall r l0 l, r ∈ input_layers self ->
    layers w !! r = Some l0 -> layers w' !! r = Some l ->
    (py (center (layer_mob l)) == py (center (layer_mob l0)))%Q
    /\ (pz (center (layer_mob l)) == pz (center (layer_mob l0)))%Q.

(** The layers, and the connective layers, of a mixed group, in the order
    of the group. *)
Definition layer_refs (group : list MobRef) : list ref :=
  omap (fun m => match m with
                 | LayerRef r => Some r
                 | ConnectiveRef _ => None
                 end) group.

Definition connective_refs (group : list MobRef) : list ref :=
  omap (fun m => match m with
                 | LayerRef _ => None
                 | ConnectiveRef r => Some r
                 end) group.

(** [a] is the forward-pass animation of the group member [m]. *)
Definition forward_pass_of (w : World) (m : MobRef) (a : Animation) : Prop :=
  exists x, get_mob m w = (Returns x, w)
            /\ a = ForwardPass m (forward_pass_run_time x).

(** The order in which [make_forward_pass_animation] visits a chain and its
    connective layers: each layer but the last with the connective layer of
    the same index, then the last layer. *)
Definition forward_pass_order (ls conn : list ref) (lastl : ref) : list MobRef :=
  flat_map (fun lc => [LayerRef lc.1; ConnectiveRef lc.2])
           (zip (slice_but_last ls) conn)
    ++ [LayerRef lastl].

(** Two layers that agree on everything, their centres up to equality of
    rationals. *)
Definition layer_equiv (l l' : Layer) : Prop :=
  layer_class l = layer_class l'
  /\ mob_moved (layer_mob l) (layer_mob l')
  /\ peq (center (layer_mob l)) (center (layer_mob l')).

(** The renderable parts of the members of a group, read from the store. *)
Definition group_mobs (w : World) (group : list MobRef) (mobs : list Mobject)
    : Prop :=
  Forall2 (fun m x => get_mob m w = (Returns x, w)) group mobs.

(** A computation that may read the store but leaves it as it found it,
    whether it returns or raises. *)
Definition read_only {A} (m : M A) : Prop := forall w, (m w).2 = w.

(** The outcome of a computation, its result changed by [f]. *)
Definition map_outcome {A B} (f : A -> B) (o : Outcome A) : Outcome B :=
  match o with
  | Returns a => Returns (f a)
  | Raises e => Raises e
  end.

(** The diagram [self] with other values in the three attributes
    [edge_color], [layer_spacing] and [animation_dot_color]. *)
Definition with_options (ec : Color) (lsp : Q) (adc : Color)
    (self : NeuralNetwork) : NeuralNetwork :=
  mkNeuralNetwork (input_layers self) (edge_width self) ec lsp adc
                  (dot_radius self) (connective_layers self) (all_layers self).

(** ** The monad, indexing and groups *)

Lemma bind_returns {A B} (m : M A) (k : A -> M B) w a w' :
  m w = (Returns a, w') -> bind m k w = k a w'.
Proof. intros H. unfold bind. by rewrite H. Qed.

Lemma bind_raises {A B} (m : M A) (k : A -> M B) w e w' :
  m w = (Raises e, w') -> bind m k w = (Raises e, w').
Proof. intros H. unfold bind. by rewrite H. Qed.

(** Runs the first computation of a sequence, given its outcome. *)
Ltac step H := rewrite (bind_returns _ _ _ _ _ H).

Lemma getitem_lookup {A} (g : list A) (i : nat) x w :
  g !! i = Some x -> getitem g (Z.of_nat i) w = (Returns x, w).
Proof.
  intros H. pose proof (lookup_lt_Some _ _ _ H) as Hlt.
  unfold getitem.
  destruct (Z.ltb_spec (Z.of_nat i) 0); [lia|].
  destruct (Z.ltb_spec (Z.of_nat i) 0); [lia|].
  destruct (Z.leb_spec (Z.of_nat (length g)) (Z.of_nat i)); [lia|].
  cbn. by rewrite Nat2Z.id, H.
Qed.

Lemma getitem_overflow {A} (g : list A) (i : nat) w :
  length g <= i -> getitem g (Z.of_nat i) w = (Raises IndexError, w).
Proof.
  intros H. unfold getitem.
  destruct (Z.ltb_spec (Z.of_nat i) 0); [lia|].
  destruct (Z.ltb_spec (Z.of_nat i) 0); [lia|].
  destruct (Z.leb_spec (Z.of_nat (length g)) (Z.of_nat i)); [done|lia].
Qed.

Lemma getitem_last {A} (g : list A) x w :
  last g = Some x -> getitem g (-1) w = (Returns x, w).
Proof.
  intros H. rewrite last_lookup in H.
  pose proof (lookup_lt_Some _ _ _ H) as Hlt.
  unfold getitem. cbn [Z.ltb Z.compare].
  destruct (Z.ltb_spec (-1 + Z.of_nat (length g)) 0); [lia|].
  destruct (Z.leb_spec (Z.of_nat (length g)) (-1 + Z.of_nat (length g))); [lia|].
  cbn. replace (Z.to_nat (-1 + Z.of_nat (length g))) with (pred (length g)) by lia.
  by rewrite H.
Qed.

Lemma range_seq (lo n : nat) :
  range (Z.of_nat lo) (Z.of_nat (lo + n)) = map Z.of_nat (seq lo n).
Proof.
  unfold range. replace (Z.to_nat (Z.of_nat (lo + n) - Z.of_nat lo)) with n by lia.
  apply list_eq. intros i. rewrite !list_lookup_fmap.
  destruct (decide (i < n)) as [Hi|Hi].
  - rewrite !lookup_seq_lt by done. cbn. f_equal. lia.
  - rewrite !lookup_seq_ge by lia. done.
Qed.

Lemma add_fresh {A} `{EqDecision A} (g : list A) (x : A) :
  x ∉ g -> add g x = g ++ [x].
Proof.
  intros H. unfold add, list_update. f_equal.
  induction g as [|y g IH]; [done|].
  apply not_elem_of_cons in H as [Hxy Hg].
  rewrite filter_cons_True; [by rewrite IH|].
  rewrite list_elem_of_singleton. congruence.
Qed.

Lemma remove_dups_NoDup {A} `{EqDecision A} (l : list A) :
  NoDup l -> remove_dups l = l.
Proof.
  induction 1 as [|x l Hx Hl IH]; [done|].
  cbn. destruct (decide_rel elem_of x l); [done|]. by rewrite IH.
Qed.

Lemma VGroup_NoDup {A} `{EqDecision A} (l : list A) : NoDup l -> VGroup l = l.
Proof. intros H. unfold VGroup, list_update. cbn. by apply remove_dups_NoDup. Qed.

(** ** Loop rules *)

(** An invariant indexed by the number of completed iterations. *)
Lemma for_fold_invariant {A St} (I : nat -> St -> World -> Prop) (xs : list A)
    (body : A -> St -> M St) :
  forall acc w,
    I 0 acc w ->
    (forall i x acc w, xs !! i = Some x -> I i acc w ->
       exists acc' w', body x acc w = (Returns acc', w') /\ I (S i) acc' w') ->
    exists acc' w',
      for_fold xs body acc w = (Returns acc', w') /\ I (length xs) acc' w'.
Proof.
  revert I. induction xs as [|x xs IH]; intros I acc w H0 Hstep.
  - exists acc, w. done.
  - destruct (Hstep 0 x acc w eq_refl H0) as (acc1 & w1 & Hb & H1).
    destruct (IH (fun i => I (S i)) acc1 w1 H1) as (acc' & w' & Hf & HI).
    { intros i y acc2 w2 Hy. apply (Hstep (S i) y acc2 w2 Hy). }
    exists acc', w'. split; [|done].
    cbn [for_fold]. by rewrite (bind_returns _ _ _ _ _ Hb).
Qed.

Lemma for_each_invariant {A} (I : nat -> World -> Prop) (xs : list A)
    (body : A -> M unit) :
  forall w,
    I 0 w ->
    (forall i x w, xs !! i = Some x -> I i w ->
       exists w', body x w = (Returns tt, w') /\ I (S i) w') ->
    exists w', for_each xs body w = (Returns tt, w') /\ I (length xs) w'.
Proof.
  revert I. induction xs as [|x xs IH]; intros I w H0 Hstep.
  - exists w. done.
  - destruct (Hstep 0 x w eq_refl H0) as (w1 & Hb & H1).
    destruct (IH (fun i => I (S i)) w1 H1) as (w' & Hf & HI).
    { intros i y w2 Hy. apply (Hstep (S i) y w2 Hy). }
    exists w'. split; [|done].
    cbn [for_each]. by rewrite (bind_returns _ _ _ _ _ Hb).
Qed.

(** ** Store access *)

Lemma get_layer_lookup r l w :
  layers w !! r = Some l -> get_layer r w = (Returns l, w).
Proof. intros H. unfold get_layer. by rewrite H. Qed.

Lemma get_connective_lookup r c w :
  connectives w !! r = Some c -> get_connective r w = (Returns c, w).
Proof. intros H. unfold get_connective. by rewrite H. Qed.

Lemma update_layer_lookup r f l w :
  layers w !! r = Some l ->
  update_layer r f w
  = (Returns tt,
     mkWorld (alter (map_layer f) r (layers w)) (connectives w) (warnings w)).
Proof.
  intros H. unfold update_layer.
  by rewrite (bind_returns _ _ _ _ _ (get_layer_lookup _ _ _ H)).
Qed.

Lemma update_connective_lookup r f c w :
  connectives w !! r = Some c ->
  update_connective r f w
  = (Returns tt,
     mkWorld (layers w) (alter (map_connective f) r (connectives w)) (warnings w)).
Proof.
  intros H. unfold update_connective.
  by rewrite (bind_returns _ _ _ _ _ (get_connective_lookup _ _ _ H)).
Qed.

Lemma lookup_valid {A} (l : list A) (r : nat) :
  r < length l -> exists x, l !! r = Some x.
Proof. intros H. by apply lookup_lt_is_Some_2. Qed.

Lemma mob_moved_refl m : mob_moved m m.
Proof. by repeat split. Qed.

Lemma mob_moved_trans m1 m2 m3 :
  mob_moved m1 m2 -> mob_moved m2 m3 -> mob_moved m1 m3.
Proof. unfold mob_moved. intuition congruence. Qed.

Lemma mob_moved_shift v m : mob_moved m (shift v m).
Proof. by repeat split. Qed.

Lemma mob_moved_move_to p m : mob_moved m (move_to p m).
Proof. by repeat split. Qed.

Lemma layer_moved_refl l : layer_moved l l.
Proof. split; [done|apply mob_moved_refl]. Qed.

Lemma layer_moved_trans l1 l2 l3 :
  layer_moved l1 l2 -> layer_moved l2 l3 -> layer_moved l1 l3.
Proof.
  intros [H1 H2] [H3 H4]. split; [congruence|by eapply mob_moved_trans].
Qed.

Lemma connective_moved_refl c : connective_moved c c.
Proof. repeat split. Qed.

Lemma connective_moved_trans c1 c2 c3 :
  connective_moved c1 c2 -> connective_moved c2 c3 -> connective_moved c1 c3.
Proof.
  intros (?&?&?&?&?) (?&?&?&?&?).
  repeat (split; [congruence|]). by eapply mob_moved_trans.
Qed.

Lemma Forall2_refl_on {A} (R : A -> A -> Prop) (l : list A) :
  (forall x, R x x) -> Forall2 R l l.
Proof. intros H. induction l; constructor; auto. Qed.

Lemma Forall2_trans_on {A} (R : A -> A -> Prop) (l1 l2 l3 : list A) :
  (forall x y z, R x y -> R y z -> R x z) ->
  Forall2 R l1 l2 -> Forall2 R l2 l3 -> Forall2 R l1 l3.
Proof.
  intros HR H12. revert l3.
  induction H12; intros l3 H23; inversion H23; subst; constructor; eauto.
Qed.

Lemma moved_refl w : moved w w.
Proof.
  repeat split.
  - apply Forall2_refl_on, layer_moved_refl.
  - apply Forall2_refl_on, connective_moved_refl.
Qed.

Lemma moved_trans w1 w2 w3 : moved w1 w2 -> moved w2 w3 -> moved w1 w3.
Proof.
  intros (H1 & H2 & H3) (H4 & H5 & H6). repeat split.
  - eapply Forall2_trans_on; eauto using layer_moved_trans.
  - eapply Forall2_trans_on; eauto using connective_moved_trans.
  - congruence.
Qed.

(** Moving one object of a group keeps the store in the [moved] relation. *)
Lemma update_mob_moved (m : MobRef) (f : Mobject -> Mobject) w :
  (forall x, mob_moved x (f x)) ->
  (exists x, get_mob m w = (Returns x, w)) ->
  exists w', update_mob m f w = (Returns tt, w') /\ moved w w'.
Proof.
  intros Hf [x Hx]. destruct m as [r|r]; cbn in *.
  - unfold bind, get_layer in Hx.
    destruct (layers w !! r) as [l|] eqn:Hl; [|done].
    eexists. split; [by eapply update_layer_lookup|].
    repeat split; cbn.
    + apply Forall2_alter_r; [apply Forall2_refl_on, layer_moved_refl|].
      intros a b _ _ [Hc Hm]. split; [done|].
      eapply mob_moved_trans; [exact Hm|apply Hf].
    + apply Forall2_refl_on, connective_moved_refl.
  - unfold bind, get_connective in Hx.
    destruct (connectives w !! r) as [c|] eqn:Hc; [|done].
    eexists. split; [by eapply update_connective_lookup|].
    repeat split; cbn.
    + apply Forall2_refl_on, layer_moved_refl.
    + apply Forall2_alter_r; [apply Forall2_refl_on, connective_moved_refl|].
      intros a b _ _ (?&?&?&?&Hm). repeat (split; [done|]).
      eapply mob_moved_trans; [exact Hm|apply Hf].
Qed.

(** ** Layout: [_place_layers] *)

Lemma layers_set_z_index_spec (ls : list ref) (z : Z) w :
  Forall (fun r => r < length (layers w)) ls ->
  exists w',
    layers_set_z_index ls z w = (Returns tt, w')
    /\ connectives w' = connectives w /\ warnings w' = warnings w
    /\ length (layers w') = length (layers w)
    /\ forall r, layers w' !! r
         = (if decide (r ∈ ls) then map_layer (set_z_index z) else id)
             <$> layers w !! r.
Proof.
  intros Hwf. unfold layers_set_z_index.
  destruct (for_each_invariant
    (fun i w' =>
       connectives w' = connectives w /\ warnings w' = warnings w
       /\ length (layers w') = length (layers w)
       /\ forall r, layers w' !! r
            = (if decide (r ∈ take i ls) then map_layer (set_z_index z) else id)
                <$> layers w !! r)
    ls (fun r => update_layer r (set_z_index z)) w) as (w' & Hrun & HI).
  - repeat split. intros r. rewrite take_0.
    rewrite decide_False by apply not_elem_of_nil. by rewrite option_fmap_id.
  - intros i x w1 Hx (Hc & Hw & Hlen & HL).
    assert (x < length (layers w)) as Hlt
      by (eapply Forall_lookup_1 in Hwf; eauto).
    destruct (lookup_valid _ _ Hlt) as [l Hl].
    pose proof (HL x) as HLx. rewrite Hl in HLx. cbn in HLx.
    eexists. split; [by eapply update_layer_lookup|].
    cbn. repeat split; [done..|by rewrite length_alter|].
    intros r. rewrite (take_S_r _ _ _ Hx).
    destruct (decide (x = r)) as [->|Hne].
    + rewrite list_lookup_alter, (decide_True _ _ (eq_refl r)).
      rewrite (decide_True (P := r ∈ take i ls ++ [r]))
        by (apply elem_of_app; right; apply list_elem_of_here).
      rewrite HLx, Hl. cbn. by destruct (decide (r ∈ take i ls)).
    + rewrite list_lookup_alter_ne by done.
      rewrite HL. destruct (decide (r ∈ take i ls)) as [Hin|Hin].
      * rewrite decide_True; [done|]. apply elem_of_app. by left.
      * rewrite decide_False; [done|].
        rewrite elem_of_app, list_elem_of_singleton. intros [?|?]; by subst.
  - exists w'. split; [done|]. destruct HI as (Hc & Hw & Hlen & HL).
    repeat split; [done..|]. intros r. rewrite HL.
    by rewrite take_ge by lia.
Qed.

Lemma range_from_1 (n : nat) :
  range 1 (Z.of_nat n) = map Z.of_nat (seq 1 (n - 1)).
Proof.
  destruct n as [|n]; [done|].
  replace (S n - 1) with n by lia.
  rewrite <- (range_seq 1 n). f_equal.
Qed.

Lemma placed_after_intro (lp lc : Layer) :
  placed_after lp
    (map_layer (shift (mkPoint (spacing lp lc) 0 0))
       (map_layer (move_to (get_center (layer_mob lp))) lc)).
Proof.
  cbv [placed_after peq spacing map_layer shift move_to get_center padd psub
       center layer_mob width px py pz].
  repeat split; lra.
Qed.

Lemma place_loop_spec (self : NeuralNetwork) w :
  chain w (input_layers self) ->
  exists w',
    for_each (range 1 (len (input_layers self))) (fun layer_index =>
      let! previous_layer := getitem (input_layers self) (layer_index - 1) in
      let! current_layer := getitem (input_layers self) layer_index in
      let! previous := get_layer previous_layer in
      let! current := get_layer current_layer in
      let spacing := (frame_width * 0.05
                      + (width (layer_mob previous) / 2
                         + width (layer_mob current) / 2))%Q in
      update_layer current_layer (move_to (get_center (layer_mob previous))) ;;;
      update_layer current_layer (shift (mkPoint spacing 0 0))) w
    = (Returns tt, w')
    /\ place_inv w (input_layers self) (length (input_layers self) - 1) w'.
Proof.
  intros [Hnd Hwf]. set (ls := input_layers self) in *.
  unfold len. rewrite range_from_1.
  match goal with |- exists w', for_each _ ?b _ = _ /\ _ => set (body := b) end.
  destruct (for_each_invariant (place_inv w ls) (map Z.of_nat (seq 1 (length ls - 1)))
              body w) as (w' & Hrun & HI).
  - repeat split; try done.
    apply Forall2_refl_on, layer_moved_refl.
    intros j p c Hj. lia.
  - intros i x w1 Hx (Hc & Hw & HL & Hout & H0 & Hplaced).
    rewrite list_lookup_fmap in Hx.
    destruct (seq 1 (length ls - 1) !! i) as [k|] eqn:Hk; [|done].
    apply lookup_seq in Hk as [-> Hi].
    cbv [fmap option_fmap option_map] in Hx. injection Hx as <-.
    assert (i < length ls) as Hi1 by lia.
    assert (S i < length ls) as Hi2 by lia.
    destruct (lookup_valid _ _ Hi1) as [p Hp].
    destruct (lookup_valid _ _ Hi2) as [c Hcur].
    assert (p ≠ c) as Hpc.
    { intros ->. pose proof (NoDup_lookup _ _ _ _ Hnd Hp Hcur). lia. }
    pose proof (Forall2_length _ _ _ HL) as Hlen.
    assert (p < length (layers w1)) as Hpl
      by (rewrite <- Hlen; eapply Forall_lookup_1 in Hwf; eauto).
    assert (c < length (layers w1)) as Hcl
      by (rewrite <- Hlen; eapply Forall_lookup_1 in Hwf; eauto).
    destruct (lookup_valid _ _ Hpl) as [lp Hlp].
    destruct (lookup_valid _ _ Hcl) as [lc Hlc].
    subst body. cbn beta.
    change (1 + i) with (S i).
    replace (Z.of_nat (S i) - 1)%Z with (Z.of_nat i) by lia.
    rewrite (bind_returns _ _ _ _ _ (getitem_lookup _ _ _ _ Hp)).
    rewrite (bind_returns _ _ _ _ _ (getitem_lookup _ _ _ _ Hcur)).
    rewrite (bind_returns _ _ _ _ _ (get_layer_lookup _ _ _ Hlp)).
    rewrite (bind_returns _ _ _ _ _ (get_layer_lookup _ _ _ Hlc)).
    rewrite (bind_returns _ _ _ _ _ (update_layer_lookup _ _ _ _ Hlc)).
    set (f1 := map_layer (move_to (get_center (layer_mob lp)))).
    set (w2 := mkWorld (alter f1 c (layers w1)) (connectives w1) (warnings w1)).
    assert (layers w2 !! c = Some (f1 lc)) as Hlc2.
    { cbn. rewrite list_lookup_alter, decide_True by done. by rewrite Hlc. }
    rewrite (update_layer_lookup _ _ _ _ Hlc2).
    eexists. split; [done|]. unfold place_inv. cbn [layers connectives warnings w2].
    set (f2 := map_layer (shift _)).
    assert (forall r, r ≠ c ->
              alter f2 c (alter f1 c (layers w1)) !! r = layers w1 !! r) as Hne.
    { intros r Hr. by rewrite !list_lookup_alter_ne by done. }
    repeat split; try done.
    + apply Forall2_alter_r; [apply Forall2_alter_r; [done|]|].
      * intros a b _ _ [Ha Hb]. split; [done|].
        eapply mob_moved_trans; [exact Hb|apply mob_moved_move_to].
      * intros a b _ _ [Ha Hb]. split; [done|].
        eapply mob_moved_trans; [exact Hb|apply mob_moved_shift].
    + intros r Hr. rewrite (take_S_r _ _ _ Hcur) in Hr.
      apply not_elem_of_app in Hr as [Hr1 Hr2].
      rewrite list_elem_of_singleton in Hr2.
      rewrite Hne by done. by apply Hout.
    + intros r Hr. rewrite Hne; [by apply H0|].
      intros ->. pose proof (NoDup_lookup _ _ _ _ Hnd Hr Hcur). lia.
    + intros j p' c' Hj Hp' Hc'.
      destruct (decide (j = i)) as [->|Hji].
      * rewrite Hp in Hp'. rewrite Hcur in Hc'.
        injection Hp' as <-. injection Hc' as <-.
        exists lp, (f2 (f1 lc)). split; [|split].
        -- by rewrite Hne.
        -- rewrite list_lookup_alter, decide_True by done.
           rewrite list_lookup_alter, decide_True by done. by rewrite Hlc.
        -- apply placed_after_intro.
      * destruct (Hplaced j p' c') as (lp' & lc' & Hlp' & Hlc' & Hafter);
          [lia|done..|].
        exists lp', lc'. split; [|split]; [| |done].
        -- rewrite Hne; [done|]. intros ->.
           pose proof (NoDup_lookup _ _ _ _ Hnd Hp' Hcur). lia.
        -- rewrite Hne; [done|]. intros ->.
           pose proof (NoDup_lookup _ _ _ _ Hnd Hc' Hcur). lia.
  - exists w'. split; [done|].
    by rewrite length_map, length_seq in HI.
Qed.

Lemma place_layers_spec (self : NeuralNetwork) w :
  chain w (input_layers self) ->
  exists w',
    _place_layers self w = (Returns tt, w')
    /\ connectives w' = connectives w /\ warnings w' = warnings w
    /\ Forall2 layer_same_shape (layers w) (layers w')
    /\ (forall r l, r ∈ input_layers self -> layers w' !! r = Some l ->
          z_index (layer_mob l) = 2%Z)
    /\ (forall r, r ∉ input_layers self -> layers w' !! r = layers w !! r)
    /\ (forall r l0, input_layers self !! 0 = Some r -> layers w !! r = Some l0 ->
          exists l, layers w' !! r = Some l
                    /\ center (layer_mob l) = center (layer_mob l0))
    /\ (forall j p c,
          input_layers self !! j = Some p -> input_layers self !! S j = Some c ->
          exists lp lc, layers w' !! p = Some lp /\ layers w' !! c = Some lc
                        /\ placed_after lp lc).
Proof.
  intros Hchain. pose proof Hchain as [Hnd Hwf].
  destruct (place_loop_spec self w Hchain)
    as (w1 & Hloop & Hc1 & Hw1 & HL1 & Hout & H0 & Hplaced).
  pose proof (Forall2_length _ _ _ HL1) as Hlen1.
  destruct (layers_set_z_index_spec (input_layers self) 2 w1)
    as (w' & Hz & Hc' & Hw' & Hlen' & HL').
  { eapply Forall_impl; [exact Hwf|]. cbn. intros r Hr. by rewrite <- Hlen1. }
  exists w'. split.
  { unfold _place_layers. by rewrite (bind_returns _ _ _ _ _ Hloop). }
  split; [congruence|]. split; [congruence|].
  split; [|split; [|split; [|split]]].
  - apply Forall2_same_length_lookup_2; [congruence|].
    intros r l l' Hl Hl'. rewrite HL' in Hl'.
    destruct (Forall2_lookup_l _ _ _ _ _ HL1 Hl) as (l1 & Hl1 & Hc & Hm).
    rewrite Hl1 in Hl'. cbn in Hl'. injection Hl' as <-.
    destruct Hm as (?&?&?&?&?&?).
    destruct (decide (r ∈ input_layers self)); split; try done; by repeat split.
  - intros r l Hr Hl. rewrite HL', decide_True in Hl by done.
    by apply fmap_Some in Hl as (l1 & Hl1 & ->).
  - intros r Hr. rewrite HL', decide_False by done.
    rewrite option_fmap_id. apply Hout.
    intros Hin. apply Hr. apply elem_of_take in Hin as (i & Hi & _).
    by eapply list_elem_of_lookup_2.
  - intros r l0 Hr Hl0. rewrite HL', (H0 r Hr), Hl0. cbn.
    eexists. split; [done|]. by destruct (decide (r ∈ input_layers self)).
  - intros j p c Hp Hcur.
    destruct (Hplaced j p c) as (lp & lc & Hlp & Hlc & Hafter); [|done..|].
    { apply lookup_lt_Some in Hcur. lia. }
    rewrite !HL', Hlp, Hlc. cbn. eexists _, _. split; [done|]. split; [done|].
    destruct (decide (p ∈ input_layers self)), (decide (c ∈ input_layers self));
      exact Hafter.
Qed.

(** ** Connective synthesis: [_construct_connective_layers] *)

Lemma connective_for_dispatch L self p :
  connective_for L self p = None <-> dispatch_at L p = None.
Proof.
  unfold connective_for, dispatch_at.
  destruct (L !! p.1), (L !! p.2); try done.
  by destruct (dispatch _ _) as [[]|].
Qed.

Lemma length_connective_for L self ps :
  length (omap (connective_for L self) ps) = length (omap (dispatch_at L) ps).
Proof.
  induction ps as [|p ps IH]; [done|]. cbn.
  destruct (connective_for L self p) eqn:E1, (dispatch_at L p) eqn:E2;
    cbn; try congruence.
  - pose proof (proj2 (connective_for_dispatch L self p) E2). congruence.
  - pose proof (proj1 (connective_for_dispatch L self p) E1). congruence.
Qed.

Lemma length_omap_le {A B} (f : A -> option B) (l : list A) :
  length (omap f l) <= length l.
Proof. induction l as [|x l IH]; cbn; [done|]. destruct (f x); cbn; lia. Qed.

Lemma length_omap_lt {A B} (f : A -> option B) (l : list A) x :
  x ∈ l -> f x = None -> length (omap f l) < length l.
Proof.
  induction 1 as [x l|x y l Hin IH]; intros Hx; cbn.
  - rewrite Hx. pose proof (length_omap_le f l). lia.
  - specialize (IH Hx). destruct (f y); cbn; lia.
Qed.

Lemma length_omap_all {A B} (f : A -> option B) (l : list A) :
  Forall (fun x => f x <> None) l -> length (omap f l) = length l.
Proof.
  induction 1 as [|x l Hx Hl IH]; cbn; [done|].
  destruct (f x); [cbn; lia|done].
Qed.

Lemma display_app L base ps qs :
  display L base (ps ++ qs)
  = display L base ps
    ++ display L (base + length (omap (dispatch_at L) ps)) qs.
Proof.
  revert base. induction ps as [|p ps IH]; intros base; cbn.
  - by rewrite Nat.add_0_r.
  - destruct (dispatch_at L p); cbn; rewrite IH, ?Nat.add_succ_r; done.
Qed.

Lemma elem_of_display L base ps x :
  x ∈ display L base ps ->
  (exists p, p ∈ ps /\ x = LayerRef p.1)
  \/ (exists c, x = ConnectiveRef c
                /\ base <= c < base + length (omap (dispatch_at L) ps)).
Proof.
  revert base. induction ps as [|p ps IH]; intros base; cbn.
  - by intros ?%elem_of_nil.
  - destruct (dispatch_at L p) as [k|]; cbn; rewrite !elem_of_cons.
    + intros [->|[->|H]].
      * left. exists p. split; [apply list_elem_of_here|done].
      * right. exists base. split; [done|lia].
      * destruct (IH _ H) as [(q & Hq & ->)|(c & -> & Hc)].
        -- left. exists q. split; [by apply list_elem_of_further|done].
        -- right. exists c. split; [done|lia].
    + intros [->|H].
      * left. exists p. split; [apply list_elem_of_here|done].
      * destruct (IH _ H) as [(q & Hq & ->)|(c & -> & Hc)].
        -- left. exists q. split; [by apply list_elem_of_further|done].
        -- right. exists c. split; [done|lia].
Qed.

Lemma lookup_adjacencies ls i a b :
  adjacencies ls !! i = Some (a, b) <-> ls !! i = Some a /\ ls !! S i = Some b.
Proof. unfold adjacencies. by rewrite lookup_zip_Some, lookup_tail. Qed.

Lemma length_adjacencies ls : length (adjacencies ls) = length ls - 1.
Proof.
  unfold adjacencies. rewrite length_zip_with.
  destruct ls as [|a ls]; [done|]. cbn [tail length]. lia.
Qed.

Lemma range_to_pred (n : nat) :
  range 0 (Z.of_nat n - 1) = map Z.of_nat (seq 0 (n - 1)).
Proof.
  destruct n as [|n]; [done|].
  replace (Z.of_nat (S n) - 1)%Z with (Z.of_nat (0 + n)) by lia.
  replace (S n - 1) with n by lia. exact (range_seq 0 n).
Qed.

(** Setting the depth of the connective layers allocated last. *)
Lemma connectives_set_z_index_fresh (old new : list Connective) (z : Z) L W :
  connectives_set_z_index (seq (length old) (length new)) z
    (mkWorld L (old ++ new) W)
  = (Returns tt,
     mkWorld L (old ++ map (map_connective (set_z_index z)) new) W).
Proof.
  revert old. induction new as [|c new IH]; intros old; [done|].
  unfold connectives_set_z_index in *. cbn [length seq for_each].
  erewrite bind_returns; cycle 1.
  { eapply update_connective_lookup. cbn.
    by rewrite lookup_app_r, Nat.sub_diag by lia. }
  cbn [layers connectives warnings].
  replace (length old) with (length old + 0) at 2 by lia.
  rewrite alter_app_r. cbn [alter list_alter].
  specialize (IH (old ++ [map_connective (set_z_index z) c])).
  rewrite length_app, <- !app_assoc in IH. cbn in IH.
  replace (length old + 1) with (S (length old)) in IH by lia.
  rewrite IH. cbn. done.
Qed.

Lemma omap_singleton {A B} (f : A -> option B) (x : A) :
  omap f [x] = match f x with Some y => [y] | None => [] end.
Proof. cbn. by destruct (f x). Qed.

Lemma display_singleton L base p :
  display L base [p]
  = match dispatch_at L p with
    | Some _ => [LayerRef p.1; ConnectiveRef base]
    | None => [LayerRef p.1]
    end.
Proof. cbn. by destruct (dispatch_at L p). Qed.

(** A layer of the chain does not occur among the display elements of the
    adjacencies before it. *)
Lemma display_layer_fresh L base ls i a :
  NoDup ls -> ls !! i = Some a ->
  LayerRef a ∉ display L base (take i (adjacencies ls)).
Proof.
  intros Hnd Ha Hin.
  apply elem_of_display in Hin as [(p & Hp & Heq)|(c & Heq & _)]; [|done].
  injection Heq as ->.
  apply elem_of_take in Hp as (j & Hj & Hji).
  destruct p as [a' b']. apply lookup_adjacencies in Hj as [Hj _].
  pose proof (NoDup_lookup _ _ _ _ Hnd Ha Hj). lia.
Qed.

Lemma new_FeedForwardToFeedForward_lookup a b la lb ew w :
  layers w !! a = Some la -> layers w !! b = Some lb ->
  new_FeedForwardToFeedForward a b ew w
  = (Returns (length (connectives w)),
     mkWorld (layers w)
             (connectives w
                ++ [mkConnective FeedForwardToFeedForward a b ew
                                 (FeedForwardToFeedForward_mob la lb ew)])
             (warnings w)).
Proof.
  intros Ha Hb. unfold new_FeedForwardToFeedForward.
  step (get_layer_lookup _ _ _ Ha). by step (get_layer_lookup _ _ _ Hb).
Qed.

Lemma new_ImageToFeedForward_lookup a b la lb dr w :
  layers w !! a = Some la -> layers w !! b = Some lb ->
  new_ImageToFeedForward a b dr w
  = (Returns (length (connectives w)),
     mkWorld (layers w)
             (connectives w
                ++ [mkConnective ImageToFeedForward a b dr
                                 (ImageToFeedForward_mob la lb dr)])
             (warnings w)).
Proof.
  intros Ha Hb. unfold new_ImageToFeedForward.
  step (get_layer_lookup _ _ _ Ha). by step (get_layer_lookup _ _ _ Hb).
Qed.

Lemma construct_spec (self : NeuralNetwork) w lastl :
  chain w (input_layers self) ->
  last (input_layers self) = Some lastl ->
  _construct_connective_layers self w
  = (Returns
       (seq (length (connectives w))
            (length (omap (dispatch_at (layers w))
                          (adjacencies (input_layers self)))),
        display (layers w) (length (connectives w))
                (adjacencies (input_layers self))
          ++ [LayerRef lastl]),
     mkWorld (layers w)
             (connectives w
                ++ map (map_connective (set_z_index 0))
                     (omap (connective_for (layers w) self)
                           (adjacencies (input_layers self))))
             (warnings w
                ++ omap (diagnostic_for (layers w))
                     (adjacencies (input_layers self)))).
Proof.
  intros [Hnd Hwf] Hlast.
  set (ls := input_layers self) in *. set (ps := adjacencies ls).
  unfold _construct_connective_layers. fold ls.
  unfold len. rewrite range_to_pred.
  match goal with |- context [for_fold _ ?b _] => set (body := b) end.
  destruct (for_fold_invariant (construct_inv w self)
              (map Z.of_nat (seq 0 (length ls - 1))) body ([], []) w)
    as ([conn all] & w' & Hloop & HI).
  - unfold construct_inv. rewrite take_0. cbn. by rewrite !app_nil_r.
  - intros i x [conn all] w1 Hx (HL & HC & HW & Hconn & Hall).
    fold ls ps in HC, HW, Hconn, Hall. cbn [fst snd] in Hconn, Hall.
    rewrite list_lookup_fmap in Hx.
    destruct (seq 0 (length ls - 1) !! i) as [k|] eqn:Hk; [|done].
    apply lookup_seq in Hk as [-> Hi].
    cbv [fmap option_fmap option_map] in Hx. injection Hx as <-.
    change (0 + i) with i.
    destruct (lookup_valid ls i ltac:(lia)) as [a Ha].
    destruct (lookup_valid ls (S i) ltac:(lia)) as [b Hb].
    assert (ps !! i = Some (a, b)) as Hp by by apply lookup_adjacencies.
    destruct (lookup_valid (layers w) a) as [la Hla].
    { eapply Forall_lookup_1 in Hwf; eauto. }
    destruct (lookup_valid (layers w) b) as [lb Hlb].
    { eapply Forall_lookup_1 in Hwf; eauto. }
    assert (layers w1 !! a = Some la) as Hla1 by by rewrite HL.
    assert (layers w1 !! b = Some lb) as Hlb1 by by rewrite HL.
    assert (LayerRef a ∉ all) as Hfresh.
    { rewrite Hall. by apply display_layer_fresh. }
    unfold construct_inv. fold ls ps. rewrite (take_S_r _ _ _ Hp).
    rewrite !omap_app, !omap_singleton, display_app, display_singleton.
    rewrite length_app, !app_assoc, <- HC, <- HW, <- Hall.
    rewrite <- (length_connective_for _ self (take i ps)) in *.
    assert (length (connectives w1)
            = length (connectives w)
              + length (omap (connective_for (layers w) self) (take i ps)))
      as Hbase by (by rewrite HC, length_app).
    rewrite <- Hbase.
    unfold connective_for at 1, diagnostic_for at 1, dispatch_at at 1 2.
    cbn [fst snd]. rewrite Hla, Hlb. unfold dispatch.
    subst body. cbn beta iota.
    step (getitem_lookup ls i a w1 Ha).
    replace (Z.of_nat i + 1)%Z with (Z.of_nat (S i)) by lia.
    step (getitem_lookup ls (S i) b w1 Hb).
    step (get_layer_lookup _ _ _ Hla1). step (get_layer_lookup _ _ _ Hlb1).
    rewrite (add_fresh all (LayerRef a) Hfresh).
    assert (forall c : ref, c = length (connectives w1) ->
              ConnectiveRef c ∉ all ++ [LayerRef a]) as Hcfresh.
    { intros c -> Hin. apply elem_of_app in Hin as [Hin|Hin].
      - rewrite Hall in Hin.
        apply elem_of_display in Hin as [(p & _ & Heq)|(c & Heq & Hc)]; [done|].
        injection Heq as <-.
        rewrite <- (length_connective_for _ self) in Hc. lia.
      - by apply list_elem_of_singleton in Hin. }
    assert (length (connectives w1) ∉ conn) as Hnfresh.
    { rewrite Hconn, elem_of_seq. lia. }
    destruct (isinstance la FeedForwardLayer && isinstance lb FeedForwardLayer).
    + step (new_FeedForwardToFeedForward_lookup _ _ _ _ (edge_width self) _
              Hla1 Hlb1).
      unfold ret.
      rewrite (add_fresh conn _ Hnfresh), (add_fresh _ _ (Hcfresh _ eq_refl)).
      eexists _, _. split; [done|]. cbn.
      split; [done|]. split; [done|]. split; [by rewrite app_nil_r|]. split.
      -- by rewrite Hconn, seq_app, Hbase.
      -- by rewrite <- app_assoc.
    + destruct (isinstance la ImageLayer && isinstance lb FeedForwardLayer).
      * step (new_ImageToFeedForward_lookup _ _ _ _ (dot_radius self) _
                Hla1 Hlb1).
        unfold ret.
        rewrite (add_fresh conn _ Hnfresh), (add_fresh _ _ (Hcfresh _ eq_refl)).
        eexists _, _. split; [done|]. cbn.
        split; [done|]. split; [done|]. split; [by rewrite app_nil_r|]. split.
        -- by rewrite Hconn, seq_app, Hbase.
        -- by rewrite <- app_assoc.
      * unfold warn, bind, ret. eexists _, _. split; [done|]. cbn.
        rewrite !app_nil_r, Nat.add_0_r. by repeat split.
  - rewrite length_map, length_seq, <- length_adjacencies in HI.
    unfold construct_inv in HI. fold ls ps in HI. rewrite take_ge in HI by done.
    destruct HI as (HL & HC & HW & Hconn & Hall). cbn [fst snd] in Hconn, Hall.
    step Hloop. step (getitem_last ls lastl w' Hlast).
    rewrite add_fresh; cycle 1.
    { rewrite Hall. intros Hin.
      apply elem_of_display in Hin as [(p & Hp & Heq)|(c & Heq & _)]; [|done].
      injection Heq as ->.
      apply list_elem_of_lookup in Hp as (j & Hj). destruct p as [a' b'].
      pose proof (lookup_lt_Some _ _ _ Hj) as Hlt. unfold ps in Hlt, Hj.
      rewrite length_adjacencies in Hlt.
      apply lookup_adjacencies in Hj as [Hj _].
      rewrite last_lookup in Hlast.
      pose proof (NoDup_lookup _ _ _ _ Hnd Hlast Hj). lia. }
    destruct w' as [L' C' W']. cbn in HL, HC, HW. subst L' C' W' conn all.
    rewrite <- (length_connective_for _ self ps).
    unfold bind. by rewrite connectives_set_z_index_fresh.
Qed.

(** ** Recentring and the constructor *)

Lemma live_get_mob w m : live w m -> exists x, get_mob m w = (Returns x, w).
Proof.
  destruct m as [r|r]; cbn; intros H.
  - destruct (lookup_valid _ _ H) as [l Hl]. eexists.
    by step (get_layer_lookup _ _ _ Hl).
  - destruct (lookup_valid _ _ H) as [c Hc]. eexists.
    by step (get_connective_lookup _ _ _ Hc).
Qed.

Lemma moved_live w w' m : moved w w' -> live w m -> live w' m.
Proof.
  intros (HL & HC & _). apply Forall2_length in HL, HC.
  destruct m; cbn; lia.
Qed.

Lemma group_get_center_live group w :
  Forall (live w) group ->
  exists c, group_get_center group w = (Returns c, w).
Proof.
  intros Hlive. unfold group_get_center.
  match goal with |- context [for_fold _ ?b _] => set (body := b) end.
  destruct (for_fold_invariant (fun _ _ w' => w' = w) group body [] w)
    as (mobs & w' & Hrun & ->); [done| |].
  - intros i m acc w1 Hm ->.
    destruct (live_get_mob w m) as [x Hx].
    { eapply Forall_lookup_1 in Hlive; eauto. }
    subst body. cbn beta. step Hx. by eexists _, _.
  - step Hrun. by eexists.
Qed.

Lemma group_move_to_spec group p w :
  Forall (live w) group ->
  exists w', group_move_to group p w = (Returns tt, w') /\ moved w w'.
Proof.
  intros Hlive. unfold group_move_to.
  destruct (group_get_center_live group w Hlive) as [c Hc]. step Hc.
  destruct (for_each_invariant (fun _ w' => moved w w') group
              (fun m => update_mob m (shift (psub p c))) w)
    as (w' & Hrun & Hmoved); [apply moved_refl| |by exists w'].
  intros i m w1 Hm Hmv.
  destruct (update_mob_moved m (shift (psub p c)) w1) as (w2 & Hup & Hmv2).
  - apply mob_moved_shift.
  - apply live_get_mob. eapply moved_live; [done|].
    eapply Forall_lookup_1 in Hlive; eauto.
  - exists w2. split; [done|]. by eapply moved_trans.
Qed.

Lemma elem_of_adjacencies ls p :
  p ∈ adjacencies ls -> p.1 ∈ ls /\ p.2 ∈ ls.
Proof.
  intros (i & Hi)%list_elem_of_lookup. destruct p as [a b].
  apply lookup_adjacencies in Hi as [Ha Hb].
  split; by eapply list_elem_of_lookup_2.
Qed.

Lemma dispatch_at_same_shape L L' p :
  Forall2 layer_same_shape L L' -> dispatch_at L p = dispatch_at L' p.
Proof.
  intros H. unfold dispatch_at.
  assert (forall r, match L !! r, L' !! r with
                    | Some l, Some l' => layer_class l = layer_class l'
                    | None, None => True
                    | _, _ => False
                    end) as Hr.
  { intros r. destruct (L !! r) as [l|] eqn:Hl.
    - destruct (Forall2_lookup_l _ _ _ _ _ H Hl) as (l' & -> & Hc & _). done.
    - destruct (L' !! r) as [l'|] eqn:Hl'; [|done].
      destruct (Forall2_lookup_r _ _ _ _ _ H Hl') as (l & Hl2 & _). congruence. }
  pose proof (Hr p.1) as H1. pose proof (Hr p.2) as H2.
  destruct (L !! p.1), (L' !! p.1), (L !! p.2), (L' !! p.2); try done.
  unfold dispatch, isinstance. by rewrite H1, H2.
Qed.

Lemma diagnostic_for_same_shape L L' p :
  Forall2 layer_same_shape L L' -> diagnostic_for L p = diagnostic_for L' p.
Proof.
  intros H. pose proof (dispatch_at_same_shape L L' p H) as Hd.
  unfold diagnostic_for, dispatch_at in *.
  destruct (L !! p.1) as [a|] eqn:Ha.
  - destruct (Forall2_lookup_l _ _ _ _ _ H Ha) as (a' & Ha' & Hca & _).
    rewrite Ha' in *.
    destruct (L !! p.2) as [b|] eqn:Hb.
    + destruct (Forall2_lookup_l _ _ _ _ _ H Hb) as (b' & Hb' & Hcb & _).
      rewrite Hb' in *. rewrite <- Hd.
      destruct (dispatch a b); [done|].
      unfold unimplemented_connection. by rewrite Hca, Hcb.
    + destruct (L' !! p.2) as [b'|] eqn:Hb'; [|done].
      destruct (Forall2_lookup_r _ _ _ _ _ H Hb') as (b & Hb2 & _). congruence.
  - destruct (L' !! p.1) as [a'|] eqn:Ha'; [|done].
    destruct (Forall2_lookup_r _ _ _ _ _ H Ha') as (a & Ha2 & _). congruence.
Qed.

Lemma omap_ext_in {A B} (f g : A -> option B) (l : list A) :
  (forall x, f x = g x) -> omap f l = omap g l.
Proof. intros H. induction l as [|x l IH]; cbn; [done|]. by rewrite H, IH. Qed.

Lemma display_same_shape L L' base ps :
  Forall2 layer_same_shape L L' -> display L base ps = display L' base ps.
Proof.
  intros H. revert base. induction ps as [|p ps IH]; intros base; cbn; [done|].
  rewrite (dispatch_at_same_shape L L' p H), !IH. done.
Qed.

Lemma init_spec ls ec lsp adc ew dr w lastl :
  chain w ls -> last ls = Some lastl ->
  let self0 := mkNeuralNetwork ls ew ec lsp adc dr [] [] in
  let ps := adjacencies ls in
  let base := length (connectives w) in
  exists w1 w',
    _place_layers self0 w = (Returns tt, w1)
    /\ NeuralNetwork_init ls ec lsp adc ew dr w
       = (Returns (mkNeuralNetwork ls ew ec lsp adc dr
                     (seq base (length (omap (dispatch_at (layers w)) ps)))
                     (display (layers w) base ps ++ [LayerRef lastl])),
          w')
    /\ moved (mkWorld (layers w1)
                (connectives w
                   ++ map (map_connective (set_z_index 0))
                        (omap (connective_for (layers w1) self0) ps))
                (warnings w ++ omap (diagnostic_for (layers w)) ps))
             w'.
Proof.
  intros Hchain Hlast self0 ps base. pose proof Hchain as [Hnd Hwf].
  destruct (place_layers_spec self0 w Hchain)
    as (w1 & Hplace & Hc1 & Hw1 & Hshape & _).
  assert (chain w1 ls) as Hchain1.
  { split; [done|]. eapply Forall_impl; [exact Hwf|]. cbn.
    intros r Hr. by rewrite <- (Forall2_length _ _ _ Hshape). }
  pose proof (construct_spec self0 w1 lastl Hchain1 Hlast) as Hcons.
  cbn [input_layers self0] in Hcons. fold ps in Hcons.
  rewrite Hc1, Hw1 in Hcons. fold base in Hcons.
  rewrite <- (omap_ext_in _ _ ps (fun p => dispatch_at_same_shape _ _ p Hshape)),
    <- (omap_ext_in _ _ ps (fun p => diagnostic_for_same_shape _ _ p Hshape)),
    <- (display_same_shape _ _ base ps Hshape) in Hcons.
  set (w2 := mkWorld _ _ _) in Hcons.
  destruct (group_move_to_spec
              (display (layers w) base ps ++ [LayerRef lastl]) ORIGIN w2)
    as (w' & Hmove & Hmoved).
  { apply Forall_forall. intros m Hm.
    apply elem_of_app in Hm as [Hm|Hm].
    - apply elem_of_display in Hm as [(p & Hp & ->)|(c & -> & Hc)]; cbn.
      + apply elem_of_adjacencies in Hp as [Hp _].
        destruct Hchain1 as [_ Hwf1]. by eapply Forall_forall in Hwf1.
      + rewrite length_app, length_map, (length_connective_for _ self0).
        rewrite <- (omap_ext_in _ _ ps
                      (fun p => dispatch_at_same_shape _ _ p Hshape)).
        unfold base in Hc. lia.
    - apply list_elem_of_singleton in Hm as ->. cbn.
      destruct Hchain1 as [_ Hwf1]. eapply Forall_forall in Hwf1; [done|].
      rewrite last_lookup in Hlast. by eapply list_elem_of_lookup_2. }
  exists w1, w'. split; [done|]. split; [|done].
  unfold NeuralNetwork_init. rewrite (VGroup_NoDup ls Hnd).
  fold self0. step Hplace. step Hcons. cbn beta iota. by step Hmove.
Qed.

Lemma init_empty ec lsp adc ew dr w :
  NeuralNetwork_init [] ec lsp adc ew dr w = (Raises IndexError, w).
Proof. reflexivity. Qed.

(** ** Timelines of sequential groups *)

Lemma timings_back_to_back (animations : list Animation) (curr_time : Q) :
  back_to_back (build_animations_with_timings 1 curr_time animations).
Proof.
  revert curr_time. induction animations as [|anim rest IH]; intros c.
  - intros i a s e a' s' e' H. by destruct i.
  - intros [|i] a s e a' s' e' H1 H2.
    + cbn in H1. injection H1 as <- <- <-.
      destruct rest as [|anim' rest']; [done|].
      cbn in H2. injection H2 as <- <- <-. lra.
    + exact (IH _ i a s e a' s' e' H1 H2).
Qed.

Lemma foldl_Qmax_sequential (animations : list Animation) (c m : Q) :
  Forall (fun a => (0 <= get_run_time a)%Q) animations ->
  (m <= c)%Q ->
  (foldl Qmax m (map snd (build_animations_with_timings 1 c animations))
   == match animations with
      | [] => m
      | _ => c + sum_run_times animations
      end)%Q.
Proof.
  intros Hpos. revert c m.
  induction Hpos as [|anim rest Hanim Hrest IH]; intros c m Hm; [done|].
  cbn [build_animations_with_timings map foldl snd].
  set (c' := ((1 - 1) * c + 1 * (c + get_run_time anim))%Q).
  assert (c' == c + get_run_time anim)%Q as Hc' by (unfold c'; lra).
  assert (Qmax m (c + get_run_time anim) == c + get_run_time anim)%Q as Hmax.
  { apply Q.max_r. lra. }
  rewrite (IH c' (Qmax m (c + get_run_time anim))) by lra.
  destruct rest as [|anim' rest'].
  - unfold sum_run_times. cbn. lra.
  - unfold sum_run_times in *. cbn [map foldr]. lra.
Qed.

Lemma max_end_time_sequential (animations : list Animation) :
  Forall (fun a => (0 <= get_run_time a)%Q) animations ->
  (max_end_time (build_animations_with_timings 1 0 animations)
   == sum_run_times animations)%Q.
Proof.
  intros Hpos. destruct Hpos as [|anim rest Hanim Hrest]; [done|].
  unfold max_end_time.
  cbn [build_animations_with_timings map snd].
  rewrite foldl_Qmax_sequential by (done || lra).
  destruct rest as [|anim' rest'].
  - unfold sum_run_times. cbn. lra.
  - unfold sum_run_times. cbn [map foldr]. lra.
Qed.

(** ** The animation methods *)

Lemma lookup_enumerate {A} (group : list A) i x :
  group !! i = Some x -> enumerate group !! i = Some (Z.of_nat i, x).
Proof.
  intros H. unfold enumerate. apply lookup_zip_Some. split; [|done].
  rewrite list_lookup_fmap, lookup_seq_lt by (by eapply lookup_lt_Some). done.
Qed.

Lemma length_enumerate {A} (group : list A) :
  length (enumerate group) = length group.
Proof.
  unfold enumerate. rewrite length_zip_with, length_map, length_seq. lia.
Qed.

Lemma for_fold_app {A St} (xs ys : list A) (body : A -> St -> M St) acc w :
  for_fold (xs ++ ys) body acc w
  = match for_fold xs body acc w with
    | (Returns acc', w') => for_fold ys body acc' w'
    | (Raises e, w') => (Raises e, w')
    end.
Proof.
  revert acc w. induction xs as [|x xs IH]; intros acc w; [done|].
  cbn [app for_fold]. unfold bind.
  destruct (body x acc w) as [[acc1|e] w1]; [apply IH|done].
Qed.

Lemma layer_make_forward_pass_animation_lookup r l w :
  layers w !! r = Some l ->
  layer_make_forward_pass_animation r w
  = (Returns (ForwardPass (LayerRef r) (forward_pass_run_time (layer_mob l))), w).
Proof.
  intros H. unfold layer_make_forward_pass_animation.
  by step (get_layer_lookup _ _ _ H).
Qed.

Lemma connective_make_forward_pass_animation_lookup r c w :
  connectives w !! r = Some c ->
  connective_make_forward_pass_animation r w
  = (Returns (ForwardPass (ConnectiveRef r) (forward_pass_run_time (conn_mob c))),
     w).
Proof.
  intros H. unfold connective_make_forward_pass_animation.
  by step (get_connective_lookup _ _ _ H).
Qed.

(** The first [k] iterations of the loop of [make_forward_pass_animation]
    succeed as long as a connective layer is found at each index. *)
Lemma forward_pass_loop_prefix (self : NeuralNetwork) w k :
  Forall (fun r => r < length (layers w)) (input_layers self) ->
  Forall (fun r => r < length (connectives w)) (connective_layers self) ->
  k <= length (slice_but_last (input_layers self)) ->
  k <= length (connective_layers self) ->
  exists animations,
    for_fold (take k (enumerate (slice_but_last (input_layers self))))
      (fun '(layer_index, layer) all_animations =>
         let! layer_forward_pass := layer_make_forward_pass_animation layer in
         let all_animations := all_animations ++ [layer_forward_pass] in
         let! connective_layer := getitem (connective_layers self) layer_index in
         let! connective_forward_pass :=
           connective_make_forward_pass_animation connective_layer in
         ret (all_animations ++ [connective_forward_pass]))
      [] w
    = (Returns animations, w)
    /\ length animations = 2 * k.
Proof.
  intros HL HC Hk1 Hk2.
  match goal with |- context [for_fold _ ?b _] => set (body := b) end.
  set (items := slice_but_last (input_layers self)) in *.
  destruct (for_fold_invariant
              (fun i acc w' => w' = w /\ length acc = 2 * i)
              (take k (enumerate items)) body [] w)
    as (animations & w' & Hrun & -> & Hlen); [done| |].
  - intros i [idx r] acc w1 Hx [-> Hacc].
    rewrite lookup_take in Hx. case_decide; [|done].
    destruct (lookup_valid items i ltac:(lia)) as [r' Hr'].
    rewrite (lookup_enumerate _ _ _ Hr') in Hx. injection Hx as <- <-.
    assert (r' ∈ input_layers self) as Hin.
    { unfold items, slice_but_last in Hr'.
      rewrite lookup_take in Hr'. case_decide; [|done].
      by eapply list_elem_of_lookup_2. }
    destruct (lookup_valid (layers w) r') as [l Hl].
    { by eapply Forall_forall in HL. }
    destruct (lookup_valid (connective_layers self) i ltac:(lia)) as [c Hc].
    destruct (lookup_valid (connectives w) c) as [cn Hcn].
    { eapply Forall_lookup_1 in HC; eauto. }
    subst body. cbn beta iota.
    step (layer_make_forward_pass_animation_lookup _ _ _ Hl).
    step (getitem_lookup _ _ _ w Hc).
    step (connective_make_forward_pass_animation_lookup _ _ _ Hcn).
    eexists _, _. split; [done|]. split; [done|].
    rewrite !length_app. cbn. lia.
  - exists animations. split; [done|].
    rewrite length_take, length_enumerate in Hlen. lia.
Qed.

Lemma length_slice_but_last {A} (group : list A) :
  length (slice_but_last group) = length group - 1.
Proof. unfold slice_but_last. rewrite length_take. lia. Qed.

Lemma forward_pass_ok (self : NeuralNetwork) run_time passing_flash w lastl :
  Forall (fun r => r < length (layers w)) (input_layers self) ->
  Forall (fun r => r < length (connectives w)) (connective_layers self) ->
  last (input_layers self) = Some lastl ->
  length (input_layers self) - 1 <= length (connective_layers self) ->
  exists animations,
    make_forward_pass_animation self run_time passing_flash w
    = (Returns (AnimationGroup animations (default 10%Q run_time) 1), w)
    /\ length animations = 2 * (length (input_layers self) - 1) + 1.
Proof.
  intros HL HC Hlast Hlen.
  destruct (forward_pass_loop_prefix self w (length (input_layers self) - 1)
              HL HC) as (animations & Hloop & Hcount).
  { by rewrite length_slice_but_last. }
  { done. }
  rewrite take_ge in Hloop
    by (rewrite length_enumerate, length_slice_but_last; lia).
  destruct (lookup_valid (layers w) lastl) as [l Hl].
  { eapply Forall_forall in HL; [done|].
    rewrite last_lookup in Hlast. by eapply list_elem_of_lookup_2. }
  eexists. unfold make_forward_pass_animation. cbv zeta.
  cbv zeta in Hloop. step Hloop. step (getitem_last _ _ w Hlast).
  step (layer_make_forward_pass_animation_lookup _ _ _ Hl).
  split; [done|]. rewrite length_app. cbn. lia.
Qed.

Lemma forward_pass_fails (self : NeuralNetwork) run_time passing_flash w :
  Forall (fun r => r < length (layers w)) (input_layers self) ->
  Forall (fun r => r < length (connectives w)) (connective_layers self) ->
  length (connective_layers self) < length (input_layers self) - 1 ->
  make_forward_pass_animation self run_time passing_flash w
  = (Raises IndexError, w).
Proof.
  intros HL HC Hlen.
  set (k := length (connective_layers self)).
  set (items := slice_but_last (input_layers self)).
  assert (length items = length (input_layers self) - 1) as Hitems
    by apply length_slice_but_last.
  destruct (forward_pass_loop_prefix self w k HL HC)
    as (animations & Hloop & _); [fold items; lia|done|].
  destruct (lookup_valid items k ltac:(lia)) as [r Hr].
  assert (r ∈ input_layers self) as Hin.
  { unfold items, slice_but_last in Hr.
    rewrite lookup_take in Hr. case_decide; [|done].
    by eapply list_elem_of_lookup_2. }
  destruct (lookup_valid (layers w) r) as [l Hl].
  { by eapply Forall_forall in HL. }
  unfold make_forward_pass_animation. cbv zeta. fold items.
  rewrite <- (take_drop k (enumerate items)).
  rewrite (drop_S _ _ _ (lookup_enumerate _ _ _ Hr)).
  erewrite bind_raises; [done|].
  rewrite for_fold_app. fold items in Hloop. cbv zeta in Hloop. rewrite Hloop.
  cbn [for_fold]. erewrite bind_raises; [done|].
  step (layer_make_forward_pass_animation_lookup _ _ _ Hl).
  erewrite bind_raises; [done|].
  by apply getitem_overflow.
Qed.

(** Whatever [make_forward_pass_animation] returns is a group with the
    requested run time and lag ratio 1. *)
Lemma forward_pass_returns_group (self : NeuralNetwork) run_time passing_flash
    w g w' :
  make_forward_pass_animation self run_time passing_flash w = (Returns g, w') ->
  exists animations, g = AnimationGroup animations (default 10%Q run_time) 1.
Proof.
  unfold make_forward_pass_animation. cbv zeta. intros H.
  unfold bind at 1 in H.
  destruct (for_fold _ _ _ w) as [[animations|e] w1]; [|done].
  unfold bind at 1 in H.
  destruct (getitem _ _ w1) as [[r|e] w2]; [|done].
  unfold bind at 1 in H.
  destruct (layer_make_forward_pass_animation r w2) as [[a|e] w3]; [|done].
  injection H as <- _. by eexists.
Qed.

Lemma create_override_spec (self : NeuralNetwork) w :
  Forall (live w) (all_layers self) ->
  exists animations,
    _create_override self w
    = (Returns
         (AnimationGroup animations
            (max_end_time (build_animations_with_timings 1 0 animations)) 1),
       w)
    /\ Forall2 (creation_of w) (all_layers self) animations.
Proof.
  intros Hlive. unfold _create_override.
  match goal with |- context [for_fold _ ?b _] => set (body := b) end.
  destruct (for_fold_invariant
              (fun i acc w' =>
                 w' = w /\ Forall2 (creation_of w) (take i (all_layers self)) acc)
              (all_layers self) body [] w)
    as (animations & w' & Hrun & -> & Hall).
  - split; [done|]. rewrite take_0. constructor.
  - intros i m acc w1 Hm [-> Hacc].
    destruct (live_get_mob w m) as [x Hx].
    { eapply Forall_lookup_1 in Hlive; eauto. }
    subst body. cbn beta. unfold new_Create. unfold bind at 1.
    step Hx. eexists _, _. split; [done|]. split; [done|].
    rewrite (take_S_r _ _ _ Hm). apply Forall2_app; [done|].
    constructor; [|constructor]. by exists x.
  - exists animations. step Hrun. split; [done|].
    by rewrite take_ge in Hall by lia.
Qed.

(** ** What construction establishes *)

Lemma length_supported_pairs L ps :
  length (supported_pairs L ps) = length (omap (dispatch_at L) ps).
Proof.
  unfold supported_pairs. induction ps as [|p ps IH]; [done|]. cbn.
  destruct (dispatch_at L p); cbn; by rewrite IH.
Qed.

Lemma elem_of_supported_pairs L ps p k :
  (p, k) ∈ supported_pairs L ps -> p ∈ ps /\ dispatch_at L p = Some k.
Proof.
  unfold supported_pairs. intros (q & Hq & Hd)%list_elem_of_omap.
  destruct (dispatch_at L q) eqn:E; [|done]. by injection Hd as -> ->.
Qed.

Lemma supported_pairs_all L ps i p :
  Forall (fun p => dispatch_at L p <> None) ps ->
  ps !! i = Some p ->
  exists k, dispatch_at L p = Some k /\ supported_pairs L ps !! i = Some (p, k).
Proof.
  intros Hall. revert i. unfold supported_pairs.
  induction Hall as [|q ps Hq Hps IH]; intros i Hi; [done|].
  cbn. destruct (dispatch_at L q) as [k|] eqn:E; [|done].
  destruct i as [|i]; cbn in *.
  - injection Hi as <-. by exists k.
  - by apply IH.
Qed.

Lemma built_for_new (self self' : NeuralNetwork) L L' ps :
  edge_width self' = edge_width self -> dot_radius self' = dot_radius self ->
  Forall2 layer_same_shape L L' ->
  Forall2 (built_for self) (supported_pairs L ps)
          (map (map_connective (set_z_index 0))
               (omap (connective_for L' self') ps)).
Proof.
  intros Hew Hdr Hshape. unfold supported_pairs.
  induction ps as [|p ps IH]; cbn; [constructor|].
  rewrite (dispatch_at_same_shape L L' p Hshape).
  unfold connective_for, dispatch_at.
  destruct (L' !! p.1) as [a|], (L' !! p.2) as [b|]; try done.
  destruct (dispatch a b) as [[]|]; [| |done]; cbn; constructor; try done.
Qed.

Lemma built_for_moved self pk c c' :
  built_for self pk c -> connective_moved c c' -> built_for self pk c'.
Proof.
  intros (?&?&?&?&?) (?&?&?&?&(?&?&?&?&?)).
  unfold built_for. repeat split; congruence.
Qed.

Lemma Forall2_compose {A B} (R : A -> B -> Prop) (S' : B -> B -> Prop) l k k' :
  (forall x y y', R x y -> S' y y' -> R x y') ->
  Forall2 R l k -> Forall2 S' k k' -> Forall2 R l k'.
Proof.
  intros H HR. revert k'.
  induction HR; intros k' HS; inversion HS; subst; constructor; eauto.
Qed.

Lemma diagnostic_for_none L ps :
  Forall (fun p => dispatch_at L p <> None) ps ->
  omap (diagnostic_for L) ps = [].
Proof.
  induction 1 as [|p ps Hp Hps IH]; [done|]. cbn. rewrite IH.
  unfold diagnostic_for, dispatch_at in *.
  destruct (L !! p.1), (L !! p.2); try done. by destruct (dispatch _ _).
Qed.

Lemma init_facts ls ec lsp adc ew dr w lastl :
  chain w ls -> last ls = Some lastl ->
  exists self w',
    NeuralNetwork_init ls ec lsp adc ew dr w = (Returns self, w')
    /\ self = mkNeuralNetwork ls ew ec lsp adc dr
                (seq (length (connectives w))
                     (length (supported_pairs (layers w) (adjacencies ls))))
                (display (layers w) (length (connectives w)) (adjacencies ls)
                   ++ [LayerRef lastl])
    /\ warnings w' = warnings w ++ omap (diagnostic_for (layers w)) (adjacencies ls)
    /\ Forall2 layer_same_shape (layers w) (layers w')
    /\ (forall r l, r ∈ ls -> layers w' !! r = Some l ->
          z_index (layer_mob l) = 2%Z)
    /\ Forall2 connective_moved (connectives w)
               (take (length (connectives w)) (connectives w'))
    /\ Forall2 (built_for self) (supported_pairs (layers w) (adjacencies ls))
               (drop (length (connectives w)) (connectives w'))
    /\ Forall (live w') (all_layers self)
    /\ Forall (fun r => r < length (layers w')) (input_layers self)
    /\ Forall (fun r => r < length (connectives w')) (connective_layers self).
Proof.
  intros Hchain Hlast.
  destruct (init_spec ls ec lsp adc ew dr w lastl Hchain Hlast)
    as (w1 & w' & Hplace & Hinit & HmL & HmC & HmW).
  destruct (place_layers_spec (mkNeuralNetwork ls ew ec lsp adc dr [] []) w Hchain)
    as (w1' & Hplace' & Hc1 & Hw1 & Hshape & Hz & _).
  rewrite Hplace in Hplace'. injection Hplace' as <-.
  cbn [layers connectives warnings input_layers] in *.
  eexists _, w'. split; [exact Hinit|].
  split; [by rewrite length_supported_pairs|].
  split; [done|].
  assert (Forall2 layer_same_shape (layers w1) (layers w')) as Hshape'.
  { eapply Forall2_impl; [exact HmL|]. intros l l' [? (?&?&?&?&?&?)].
    by repeat split. }
  split.
  { eapply Forall2_trans_on; [|exact Hshape|exact Hshape'].
    intros x y z [? (?&?&?&?&?)] [? (?&?&?&?&?)].
    unfold layer_same_shape, mob_same_shape. repeat split; congruence. }
  split.
  { intros r l Hr Hl.
    destruct (Forall2_lookup_r _ _ _ _ _ HmL Hl) as (l1 & Hl1 & _ & Hm).
    destruct Hm as (_&_&_&<-&_). by eapply Hz. }
  apply Forall2_app_inv_l in HmC as (k1 & k2 & Hk1 & Hk2 & Heq).
  pose proof (Forall2_length _ _ _ Hk1) as Hlen1.
  rewrite Heq, take_app_length', drop_app_length' by done.
  split; [done|].
  assert (Forall2 (built_for (mkNeuralNetwork ls ew ec lsp adc dr
             (seq (length (connectives w))
                  (length (supported_pairs (layers w) (adjacencies ls))))
             (display (layers w) (length (connectives w)) (adjacencies ls)
                ++ [LayerRef lastl])))
            (supported_pairs (layers w) (adjacencies ls)) k2) as Hbuilt.
  { eapply Forall2_compose; [apply built_for_moved| |exact Hk2].
    by apply built_for_new. }
  split; [done|].
  pose proof (Forall2_length _ _ _ Hbuilt) as Hlen2.
  pose proof (Forall2_length _ _ _ Hshape) as HlenL.
  pose proof (Forall2_length _ _ _ Hshape') as HlenL'.
  destruct Hchain as [_ Hwf].
  assert (Forall (fun r => r < length (layers w')) ls) as HliveL.
  { eapply Forall_impl; [exact Hwf|]. cbn. intros r Hr. lia. }
  assert (Forall (fun r => r < length (k1 ++ k2))
            (seq (length (connectives w))
                 (length (supported_pairs (layers w) (adjacencies ls)))))
    as HliveC.
  { apply Forall_forall. intros r [? ?]%elem_of_seq. rewrite length_app. lia. }
  split; [|split; [exact HliveL|]].
  2: { cbn. rewrite <- length_supported_pairs. exact HliveC. }
  apply Forall_forall. intros m [Hm|Hm]%elem_of_app.
  - apply elem_of_display in Hm as [(p & Hp & ->)|(c & -> & Hc)]; cbn.
    + apply elem_of_adjacencies in Hp as [Hp _].
      by eapply Forall_forall in HliveL.
    + rewrite ?Heq, length_app, <- Hlen1, <- Hlen2, length_supported_pairs. lia.
  - apply list_elem_of_singleton in Hm as ->. cbn.
    eapply Forall_forall in HliveL; [done|].
    rewrite last_lookup in Hlast. by eapply list_elem_of_lookup_2.
Qed.

Lemma display_interleave L base ls lastl :
  Forall (fun p => dispatch_at L p <> None) (adjacencies ls) ->
  last ls = Some lastl ->
  display L base (adjacencies ls) ++ [LayerRef lastl]
  = interleave (LayerRef <$> ls) (ConnectiveRef <$> seq base (length ls - 1)).
Proof.
  revert base. induction ls as [|a ls IH]; intros base Hall Hlast; [done|].
  destruct ls as [|b ls].
  - cbn in *. by injection Hlast as ->.
  - change (adjacencies (a :: b :: ls)) with ((a, b) :: adjacencies (b :: ls))
      in *.
    apply Forall_cons in Hall as [Hab Hall].
    cbn [display]. destruct (dispatch_at L (a, b)); [|done].
    cbn [length Nat.sub seq fmap list_fmap interleave app fst].
    do 2 f_equal.
    rewrite (IH (S base) Hall Hlast). cbn [length Nat.sub].
    by rewrite Nat.sub_0_r.
Qed.

Lemma nonempty_last {A} (l : list A) : l <> [] -> exists x, last l = Some x.
Proof. intros H. by apply last_is_Some. Qed.

(** ** The claims *)

(** C5. Constructing the diagram from an empty layer sequence fails: the
    constructor raises (Python's [IndexError], at [self.input_layers[-1]])
    and returns no diagram; the store is left as it was. *)
Theorem empty_layers_fail ec lsp adc ew dr w :
  NeuralNetwork_init [] ec lsp adc ew dr w = (Raises IndexError, w).
Proof. apply init_empty. Qed.

(** C3. When every adjacent pair of a chain of distinct layers has a
    supported pairing, construction succeeds, the connective sequence has
    N-1 entries, its i-th entry was built from (Layer[i], Layer[i+1]) with
    the variant the pairing selects, and the display sequence is the
    interleaving L0, C0, L1, C1, ..., L_{N-1}. *)
Theorem connectives_bridge_adjacent_layers ls ec lsp adc ew dr w :
  chain w ls -> ls <> [] ->
  Forall (fun p => dispatch_at (layers w) p <> None) (adjacencies ls) ->
  exists self w',
    NeuralNetwork_init ls ec lsp adc ew dr w = (Returns self, w')
    /\ input_layers self = ls
    /\ length (connective_layers self) = length ls - 1
    /\ (forall i a b, ls !! i = Some a -> ls !! S i = Some b ->
          exists r c k,
            connective_layers self !! i = Some r
            /\ connectives w' !! r = Some c
            /\ dispatch_at (layers w) (a, b) = Some k
            /\ built_for self (a, b, k) c)
    /\ all_layers self
       = interleave (LayerRef <$> ls) (ConnectiveRef <$> connective_layers self).
Proof.
  intros Hchain Hne Hall. destruct (nonempty_last ls Hne) as [lastl Hlast].
  destruct (init_facts ls ec lsp adc ew dr w lastl Hchain Hlast)
    as (self & w' & Hinit & Hself & _ & _ & _ & _ & Hbuilt & _).
  exists self, w'. split; [done|]. subst self.
  cbn [input_layers connective_layers all_layers] in *.
  assert (length (supported_pairs (layers w) (adjacencies ls)) = length ls - 1)
    as Hlen.
  { by rewrite length_supported_pairs, length_omap_all, length_adjacencies. }
  rewrite Hlen. split; [done|]. split; [by rewrite length_seq|]. split.
  - intros i a b Ha Hb.
    assert (adjacencies ls !! i = Some (a, b)) as Hp by by apply lookup_adjacencies.
    destruct (supported_pairs_all _ _ _ _ Hall Hp) as (k & Hk & Hsp).
    destruct (Forall2_lookup_l _ _ _ _ _ Hbuilt Hsp) as (c & Hc & Hbc).
    rewrite lookup_drop in Hc.
    exists (length (connectives w) + i), c, k. split; [|done].
    apply lookup_seq_lt. apply lookup_lt_Some in Hb. lia.
  - by apply display_interleave.
Qed.

(** C4. An adjacent pair whose pairing matches neither (FeedForward,
    FeedForward) nor (Image, FeedForward) makes the synthesizer log a
    warning that names both types and go on: construction completes, no
    connective layer of the diagram bridges that pair, the connective
    sequence has fewer than N-1 entries, and the display sequence still ends
    with the final layer. *)
Theorem unsupported_adjacency_is_skipped ls ec lsp adc ew dr w i a b la lb lastl :
  chain w ls ->
  ls !! i = Some a -> ls !! S i = Some b ->
  layers w !! a = Some la -> layers w !! b = Some lb ->
  dispatch la lb = None ->
  last ls = Some lastl ->
  exists self w' messages,
    NeuralNetwork_init ls ec lsp adc ew dr w = (Returns self, w')
    /\ warnings w' = warnings w ++ messages
    /\ ("Warning: unimplemented connection for layer types: "
          +:+ type_repr (layer_class la) +:+ " and "
          +:+ type_repr (layer_class lb)) ∈ messages
    /\ (forall r c, r ∈ connective_layers self -> connectives w' !! r = Some c ->
          ~ (input_layer c = a /\ output_layer c = b))
    /\ length (connective_layers self) < length ls - 1
    /\ last (all_layers self) = Some (LayerRef lastl).
Proof.
  intros Hchain Ha Hb Hla Hlb Hnone Hlast.
  destruct (init_facts ls ec lsp adc ew dr w lastl Hchain Hlast)
    as (self & w' & Hinit & Hself & Hwarn & _ & _ & _ & Hbuilt & _).
  assert (adjacencies ls !! i = Some (a, b)) as Hp by by apply lookup_adjacencies.
  assert (dispatch_at (layers w) (a, b) = None) as Hd.
  { unfold dispatch_at. cbn. by rewrite Hla, Hlb. }
  exists self, w', (omap (diagnostic_for (layers w)) (adjacencies ls)).
  split; [done|]. split; [done|]. subst self.
  cbn [input_layers connective_layers all_layers] in *.
  split; [|split; [|split]].
  - apply list_elem_of_omap. exists (a, b).
    split; [by eapply list_elem_of_lookup_2|].
    unfold diagnostic_for. cbn. by rewrite Hla, Hlb, Hnone.
  - intros r c Hr Hc [Hin Hout].
    apply elem_of_seq in Hr as [Hr1 Hr2].
    assert (drop (length (connectives w)) (connectives w')
              !! (r - length (connectives w)) = Some c) as Hc'.
    { rewrite lookup_drop. by replace (_ + _) with r by lia. }
    destruct (Forall2_lookup_r _ _ _ _ _ Hbuilt Hc')
      as ([p k] & Hsp & _ & Hi & Ho & _).
    apply list_elem_of_lookup_2, elem_of_supported_pairs in Hsp as [_ Hk].
    cbn in Hi, Ho. destruct p as [a' b']. cbn in Hi, Ho. congruence.
  - rewrite length_seq, length_supported_pairs, <- length_adjacencies.
    eapply length_omap_lt; [|exact Hd]. by eapply list_elem_of_lookup_2.
  - by rewrite last_snoc.
Qed.


(** C2. After the layout phase the first layer is where it was, and every
    later layer sits at its predecessor's centre shifted along the
    horizontal axis by 0.05 * frame_width plus the two half-widths; on a
    canvas of non-negative width, consecutive centres are therefore at
    least the two half-widths apart. *)
Theorem layout_spacing (self : NeuralNetwork) w :
  chain w (input_layers self) ->
  exists w',
    _place_layers self w = (Returns tt, w')
    /\ (forall r l0, input_layers self !! 0 = Some r -> layers w !! r = Some l0 ->
          exists l, layers w' !! r = Some l
                    /\ center (layer_mob l) = center (layer_mob l0))
    /\ (forall i p c lp0 lc0,
          input_layers self !! i = Some p -> input_layers self !! S i = Some c ->
          layers w !! p = Some lp0 -> layers w !! c = Some lc0 ->
          exists lp lc,
            layers w' !! p = Some lp /\ layers w' !! c = Some lc
            /\ peq (center (layer_mob lc))
                   (padd (center (layer_mob lp))
                         (mkPoint (frame_width * 0.05
                                   + (width (layer_mob lp0) / 2
                                      + width (layer_mob lc0) / 2)) 0 0))
            /\ ((0 <= frame_width)%Q ->
                (width (layer_mob lp0) / 2 + width (layer_mob lc0) / 2
                 <= px (center (layer_mob lc)) - px (center (layer_mob lp)))%Q)).
Proof.
  intros Hchain.
  destruct (place_layers_spec self w Hchain)
    as (w' & Hrun & _ & _ & Hshape & _ & _ & Hfirst & Hafter).
  exists w'. split; [done|]. split; [done|].
  intros i p c lp0 lc0 Hp Hc Hlp0 Hlc0.
  destruct (Hafter i p c Hp Hc) as (lp & lc & Hlp & Hlc & Hpl).
  exists lp, lc. split; [done|]. split; [done|].
  destruct (Forall2_lookup_lr _ _ _ _ _ _ Hshape Hlp0 Hlp) as (_ & Hwp & _).
  destruct (Forall2_lookup_lr _ _ _ _ _ _ Hshape Hlc0 Hlc) as (_ & Hwc & _).
  unfold placed_after, spacing in Hpl. rewrite <- Hwp, <- Hwc in Hpl.
  split; [done|]. intros Hfw.
  destruct Hpl as (Hx & _). cbn [padd px] in Hx.
  set (s := (width (layer_mob lp0) / 2 + width (layer_mob lc0) / 2)%Q) in *.
  lra.
Qed.

(** C9, amended. The layout phase changes nothing of a layer but its
    position and its render depth: class, extents and animation durations
    of every layer stay, and the render depth of every layer of the chain
    becomes 2.  The first layer keeps its position in all three coordinates,
    and the whole chain is put on its row: after layout every layer has the
    vertical and depth coordinates the first layer had before, whatever its
    own coordinates were. *)
Theorem layout_aligns_rows (self : NeuralNetwork) w :
  chain w (input_layers self) ->
  exists w',
    _place_layers self w = (Returns tt, w')
    /\ Forall2 layer_same_shape (layers w) (layers w')
    /\ (forall r0 l0,
          input_layers self !! 0 = Some r0 -> layers w !! r0 = Some l0 ->
          exists l, layers w' !! r0 = Some l
                    /\ center (layer_mob l) = center (layer_mob l0))
    /\ (forall i r r0 l0,
          input_layers self !! 0 = Some r0 -> layers w !! r0 = Some l0 ->
          input_layers self !! i = Some r ->
          exists l, layers w' !! r = Some l
                    /\ z_index (layer_mob l) = 2%Z
                    /\ (py (center (layer_mob l)) == py (center (layer_mob l0)))%Q
                    /\ (pz (center (layer_mob l)) == pz (center (layer_mob l0)))%Q).
Proof.
  intros Hchain.
  destruct (place_layers_spec self w Hchain)
    as (w' & Hrun & _ & _ & Hshape & Hdepth & _ & Hfirst & Hafter).
  exists w'. split; [done|]. split; [done|]. split; [exact Hfirst|].
  intros i r r0 l0 Hr0 Hl0. revert r.
  induction i as [|i IH]; intros r Hr.
  - rewrite Hr0 in Hr. injection Hr as <-.
    destruct (Hfirst r0 l0 Hr0 Hl0) as (l & Hl & Hc).
    exists l. rewrite Hc. split; [done|].
    split; [|by split].
    eapply Hdepth; [|exact Hl]. by eapply list_elem_of_lookup_2.
  - destruct (lookup_valid (input_layers self) i) as [p Hp].
    { apply lookup_lt_Some in Hr. lia. }
    destruct (IH p Hp) as (lp & Hlp & _ & Hy & Hz).
    destruct (Hafter i p r Hp Hr) as (lp' & lc & Hlp' & Hlc & _ & Hy' & Hz').
    rewrite Hlp in Hlp'. injection Hlp' as <-.
    exists lc. split; [done|].
    split; [eapply Hdepth; [|exact Hlc]; by eapply list_elem_of_lookup_2|].
    cbn [padd py pz] in Hy', Hz'. split; lra.
Qed.

(** C1. A layer sequence with an unsupported adjacency still constructs,
    with fewer connective layers than adjacencies; the forward-pass
    animation of the resulting diagram then raises [IndexError] instead of
    returning an animation, because [make_forward_pass_animation] reads a
    connective layer at every index below N-1. *)
Theorem forward_pass_raises_after_skip ls ec lsp adc ew dr w i a b :
  chain w ls ->
  ls !! i = Some a -> ls !! S i = Some b ->
  dispatch_at (layers w) (a, b) = None ->
  exists self w',
    NeuralNetwork_init ls ec lsp adc ew dr w = (Returns self, w')
    /\ length (connective_layers self) < length (input_layers self) - 1
    /\ forall run_time passing_flash,
         make_forward_pass_animation self run_time passing_flash w'
         = (Raises IndexError, w').
Proof.
  intros Hchain Ha Hb Hd.
  destruct (nonempty_last ls) as [lastl Hlast]; [by intros ->|].
  destruct (init_facts ls ec lsp adc ew dr w lastl Hchain Hlast)
    as (self & w' & Hinit & Hself & _ & _ & _ & _ & _ & _ & HL & HC).
  assert (length (connective_layers self) < length (input_layers self) - 1)
    as Hshort.
  { subst self. cbn [input_layers connective_layers].
    rewrite length_seq, length_supported_pairs, <- length_adjacencies.
    eapply length_omap_lt; [|exact Hd].
    eapply list_elem_of_lookup_2. by apply lookup_adjacencies. }
  exists self, w'. split; [done|]. split; [done|].
  intros run_time passing_flash. by apply forward_pass_fails.
Qed.

(** C6. Whatever animation [make_forward_pass_animation] returns for a
    constructed diagram is a group whose run time is the requested one (10
    when none is requested), composed with lag ratio 1, each sub-animation
    starting when the previous one ends; when every adjacency is supported
    and the run time is positive it does return one, of 2N-1
    sub-animations. *)
Theorem forward_pass_duration_is_requested ls ec lsp adc ew dr w :
  chain w ls -> ls <> [] ->
  exists self w',
    NeuralNetwork_init ls ec lsp adc ew dr w = (Returns self, w')
    /\ forall run_time passing_flash,
         (forall g w'',
            make_forward_pass_animation self run_time passing_flash w'
            = (Returns g, w'') ->
            exists animations,
              g = AnimationGroup animations (default 10%Q run_time) 1
              /\ get_run_time g = default 10%Q run_time
              /\ back_to_back (build_animations_with_timings 1 0 animations))
         /\ ((0 < default 10 run_time)%Q ->
             Forall (fun p => dispatch_at (layers w) p <> None) (adjacencies ls) ->
             exists animations,
               make_forward_pass_animation self run_time passing_flash w'
               = (Returns (AnimationGroup animations (default 10%Q run_time) 1),
                  w')
               /\ length animations = 2 * (length ls - 1) + 1).
Proof.
  intros Hchain Hne. destruct (nonempty_last ls Hne) as [lastl Hlast].
  destruct (init_facts ls ec lsp adc ew dr w lastl Hchain Hlast)
    as (self & w' & Hinit & Hself & _ & _ & _ & _ & _ & _ & HL & HC).
  exists self, w'. split; [done|]. intros run_time passing_flash. split.
  - intros g w'' Hg.
    destruct (forward_pass_returns_group _ _ _ _ _ _ Hg) as [animations ->].
    exists animations. split; [done|]. split; [done|].
    apply timings_back_to_back.
  - intros _ Hall.
    destruct (forward_pass_ok self run_time passing_flash w' lastl HL HC)
      as (animations & Hrun & Hlen).
    + by subst self.
    + subst self. cbn [input_layers connective_layers].
      rewrite length_seq, length_supported_pairs, length_omap_all,
        length_adjacencies by done. done.
    + exists animations. split; [done|]. by subst self.
Qed.

(** C7. The [Create] override of a constructed diagram returns one group
    holding the creation animation of each element of the display sequence,
    in that order, composed with lag ratio 1: each creation starts when the
    previous one ends, and, creation run times being non-negative, the run
    time of the group is their sum. *)
Theorem create_is_sequential ls ec lsp adc ew dr w :
  chain w ls -> ls <> [] ->
  exists self w' animations run_time,
    NeuralNetwork_init ls ec lsp adc ew dr w = (Returns self, w')
    /\ _create_override self w'
       = (Returns (AnimationGroup animations run_time 1), w')
    /\ Forall2 (creation_of w') (all_layers self) animations
    /\ back_to_back (build_animations_with_timings 1 0 animations)
    /\ (Forall (fun a => (0 <= get_run_time a)%Q) animations ->
        (run_time == sum_run_times animations)%Q).
Proof.
  intros Hchain Hne. destruct (nonempty_last ls Hne) as [lastl Hlast].
  destruct (init_facts ls ec lsp adc ew dr w lastl Hchain Hlast)
    as (self & w' & Hinit & Hself & _ & _ & _ & _ & _ & Hlive & _).
  destruct (create_override_spec self w' Hlive) as (animations & Hrun & Hall).
  exists self, w', animations. eexists. split; [done|]. split; [exact Hrun|].
  split; [done|]. split; [apply timings_back_to_back|].
  apply max_end_time_sequential.
Qed.

(** ** The subclass [FeedForwardNeuralNetwork] *)

Lemma new_layers_spec (layer_node_count : list Z) node_color node_radius acc w :
  for_fold layer_node_count
    (fun num_nodes layers =>
       let! layer := new_FeedForwardLayer num_nodes node_color node_radius in
       ret (layers ++ [layer]))
    acc w
  = (Returns (acc ++ seq (length (layers w)) (length layer_node_count)),
     mkWorld (layers w
                ++ map (fun num_nodes =>
                          mkLayer (mkClass FeedForwardLayer [])
                                  (FeedForwardLayer_mob num_nodes node_color
                                                        node_radius))
                     layer_node_count)
             (connectives w) (warnings w)).
Proof.
  revert acc w. induction layer_node_count as [|n ns IH]; intros acc w.
  - destruct w. cbn. by rewrite !app_nil_r.
  - cbn [for_fold]. unfold bind at 1, new_FeedForwardLayer, new_layer, bind, ret.
    rewrite IH. cbn [layers connectives warnings length map seq].
    rewrite length_app, <- !app_assoc. cbn.
    by replace (length (layers w) + 1) with (S (length (layers w))) by lia.
Qed.

Lemma lookup_adjacencies_seq base k i :
  S i < k -> adjacencies (seq base k) !! i = Some (base + i, base + S i).
Proof.
  intros H. apply lookup_adjacencies. by rewrite !lookup_seq_lt by lia.
Qed.

Lemma dispatch_at_feed_forward (L : list Layer) (mobs : list Mobject) p :
  p ∈ adjacencies (seq (length L) (length mobs)) ->
  dispatch_at (L ++ map (mkLayer (mkClass FeedForwardLayer [])) mobs) p
  = Some FeedForwardToFeedForward.
Proof.
  intros [Hp1 Hp2]%elem_of_adjacencies.
  assert (forall r, r ∈ seq (length L) (length mobs) ->
            exists m, (L ++ map (mkLayer (mkClass FeedForwardLayer [])) mobs) !! r
                      = Some (mkLayer (mkClass FeedForwardLayer []) m)) as Hr.
  { intros r [? ?]%elem_of_seq.
    destruct (lookup_valid mobs (r - length L) ltac:(lia)) as [m Hm].
    exists m. rewrite lookup_app_r by lia.
    by rewrite list_lookup_fmap, Hm. }
  destruct (Hr _ Hp1) as [m1 H1]. destruct (Hr _ Hp2) as [m2 H2].
  unfold dispatch_at. by rewrite H1, H2.
Qed.

(** C10. From a non-empty list of k node counts the subclass builds k
    feed-forward layers, one per count and in list order; every adjacency
    has the (FeedForward, FeedForward) pairing, so the diagram gets k-1
    connective layers, all of the FeedForward-to-FeedForward variant, each
    bridging two consecutive layers, and no warning is logged. *)
Theorem feed_forward_network (layer_node_count : list Z) node_radius node_color
    kwargs w :
  layer_node_count <> [] ->
  exists self w',
    FeedForwardNeuralNetwork_init layer_node_count node_radius node_color kwargs w
    = (Returns self, w')
    /\ input_layers self = seq (length (layers w)) (length layer_node_count)
    /\ (forall i num_nodes, layer_node_count !! i = Some num_nodes ->
          exists l, layers w' !! (length (layers w) + i) = Some l
                    /\ isinstance l FeedForwardLayer = true
                    /\ layer_same_shape
                         (mkLayer (mkClass FeedForwardLayer [])
                                  (FeedForwardLayer_mob num_nodes node_color
                                                        node_radius)) l)
    /\ length (connective_layers self) = length layer_node_count - 1
    /\ (forall i r, connective_layers self !! i = Some r ->
          exists c, connectives w' !! r = Some c
                    /\ conn_kind c = FeedForwardToFeedForward
                    /\ input_layer c = length (layers w) + i
                    /\ output_layer c = length (layers w) + S i)
    /\ warnings w' = warnings w.
Proof.
  intros Hne.
  set (mobs := map (fun n => FeedForwardLayer_mob n node_color node_radius)
                   layer_node_count).
  set (k := length layer_node_count).
  set (base := length (layers w)).
  set (ls := seq base k).
  set (wA := mkWorld (layers w ++ map (mkLayer (mkClass FeedForwardLayer [])) mobs)
                     (connectives w) (warnings w)).
  assert (k = length mobs) as Hk by (unfold mobs; by rewrite length_map).
  assert (0 < k) as Hpos by (unfold k; destruct layer_node_count; [done|cbn; lia]).
  assert (chain wA ls) as Hchain.
  { split; [apply NoDup_seq|]. apply Forall_forall.
    intros r [? ?]%elem_of_seq. cbn. rewrite length_app, length_map. lia. }
  assert (ls <> []) as Hls by (unfold ls; destruct k; [lia|done]).
  destruct (nonempty_last ls Hls) as [lastl Hlast].
  assert (Forall (fun p => dispatch_at (layers wA) p <> None) (adjacencies ls))
    as Hall.
  { apply Forall_forall. intros p Hp. cbn. unfold ls, base in Hp.
    rewrite Hk in Hp. by rewrite (dispatch_at_feed_forward _ _ _ Hp). }
  destruct (init_facts ls
              (default WHITE (kw_edge_color kwargs))
              (default 0.8%Q (kw_layer_spacing kwargs))
              (default RED (kw_animation_dot_color kwargs))
              (default 1.5%Q (kw_edge_width kwargs))
              (default 0.03%Q (kw_dot_radius kwargs)) wA lastl Hchain Hlast)
    as (self & w' & Hinit & Hself & Hwarn & Hshape & _ & _ & Hbuilt & _).
  exists self, w'. split.
  { unfold FeedForwardNeuralNetwork_init.
    erewrite bind_returns; [exact Hinit|].
    rewrite new_layers_spec. cbn [app]. fold k base ls. f_equal.
    unfold wA, mobs. by rewrite map_map. }
  subst self. cbn [input_layers connective_layers].
  split; [done|]. split; [|split; [|split]].
  - intros i n Hi.
    assert (layers wA !! (base + i)
            = Some (mkLayer (mkClass FeedForwardLayer [])
                            (FeedForwardLayer_mob n node_color node_radius)))
      as HlA.
    { cbn. rewrite lookup_app_r by (unfold base; lia).
      replace (base + i - length (layers w)) with i by (unfold base; lia).
      unfold mobs. by rewrite !list_lookup_fmap, Hi. }
    destruct (Forall2_lookup_l _ _ _ _ _ Hshape HlA) as (l & Hl & Hsh).
    exists l. split; [done|]. split; [|done].
    unfold isinstance. by destruct Hsh as [<- _].
  - rewrite length_seq, length_supported_pairs, length_omap_all,
      length_adjacencies by done.
    unfold ls. by rewrite length_seq.
  - intros i r Hr. apply lookup_seq in Hr as [-> Hi].
    rewrite length_supported_pairs, length_omap_all, length_adjacencies in Hi
      by done.
    unfold ls in Hi. rewrite length_seq in Hi.
    assert (adjacencies ls !! i = Some (base + i, base + S i)) as Hp
      by (apply lookup_adjacencies_seq; lia).
    destruct (supported_pairs_all _ _ _ _ Hall Hp) as (kind & Hkind & Hsp).
    destruct (Forall2_lookup_l _ _ _ _ _ Hbuilt Hsp)
      as (c & Hc & Hck & Hci & Hco & _).
    rewrite lookup_drop in Hc. exists c. split; [done|].
    cbn in Hck, Hci, Hco. split; [|done].
    apply list_elem_of_lookup_2 in Hp. unfold ls, base in Hp. rewrite Hk in Hp.
    assert (dispatch_at (layers wA) (base + i, base + S i)
            = Some FeedForwardToFeedForward) as Hff
      by exact (dispatch_at_feed_forward _ _ _ Hp).
    congruence.
  - rewrite Hwarn, (diagnostic_for_none _ _ Hall). cbn. by rewrite app_nil_r.
Qed.

(** ** Further properties of the synthesis *)

Lemma diagnostics_and_supported L ps :
  Forall (fun p => is_Some (L !! p.1) /\ is_Some (L !! p.2)) ps ->
  length (supported_pairs L ps) + length (omap (diagnostic_for L) ps)
  = length ps.
Proof.
  unfold supported_pairs.
  induction 1 as [|p ps [[a Ha] [b Hb]] Hps IH]; [done|].
  cbn [omap list_omap length].
  assert (dispatch_at L p = dispatch a b) as -> by
    (unfold dispatch_at; by rewrite Ha, Hb).
  assert (diagnostic_for L p
          = match dispatch a b with
            | Some _ => None
            | None => Some (unimplemented_connection a b)
            end) as -> by (unfold diagnostic_for; by rewrite Ha, Hb).
  destruct (dispatch a b); cbn [length]; lia.
Qed.

Lemma adjacencies_live w ls :
  chain w ls ->
  Forall (fun p => is_Some (layers w !! p.1) /\ is_Some (layers w !! p.2))
         (adjacencies ls).
Proof.
  intros [_ Hwf]. apply Forall_forall. intros p [H1 H2]%elem_of_adjacencies.
  split; apply lookup_lt_is_Some_2; by eapply Forall_forall in Hwf.
Qed.

Lemma layer_refs_display L base ls lastl :
  last ls = Some lastl ->
  layer_refs (display L base (adjacencies ls) ++ [LayerRef lastl]) = ls.
Proof.
  revert base. induction ls as [|a ls IH]; intros base Hlast; [done|].
  destruct ls as [|b ls].
  - cbn in *. by injection Hlast as ->.
  - change (adjacencies (a :: b :: ls)) with ((a, b) :: adjacencies (b :: ls)).
    cbn [display]. unfold layer_refs in *.
    destruct (dispatch_at L (a, b)); cbn [app omap list_omap fst]; f_equal;
      by apply IH.
Qed.

Lemma connective_refs_display L base ps lastl :
  connective_refs (display L base ps ++ [LayerRef lastl])
  = seq base (length (omap (dispatch_at L) ps)).
Proof.
  revert base. unfold connective_refs.
  induction ps as [|p ps IH]; intros base; [done|].
  cbn [display omap list_omap].
  destruct (dispatch_at L p); cbn [app omap list_omap length seq]; [f_equal|];
    apply IH.
Qed.

Lemma NoDup_by_kind (group : list MobRef) :
  NoDup (layer_refs group) -> NoDup (connective_refs group) -> NoDup group.
Proof.
  unfold layer_refs, connective_refs.
  induction group as [|m group IH]; intros HL HC; [constructor|].
  destruct m as [r|r]; cbn in HL, HC.
  - apply NoDup_cons in HL as [Hr HL]. constructor; [|by apply IH].
    intros Hin. apply Hr. apply list_elem_of_omap. by exists (LayerRef r).
  - apply NoDup_cons in HC as [Hr HC]. constructor; [|by apply IH].
    intros Hin. apply Hr. apply list_elem_of_omap. by exists (ConnectiveRef r).
Qed.

(** X1. Every adjacency of the chain is accounted for once: construction
    adds to the warnings log exactly the messages of the adjacencies without
    a supported pairing, in chain order and after the messages already
    there, it builds one connective layer for each other adjacency, and the
    two numbers add up to N-1. *)
Theorem every_adjacency_is_connected_or_reported ls ec lsp adc ew dr w :
  chain w ls -> ls <> [] ->
  exists self w',
    NeuralNetwork_init ls ec lsp adc ew dr w = (Returns self, w')
    /\ warnings w'
       = warnings w ++ omap (diagnostic_for (layers w)) (adjacencies ls)
    /\ length (connective_layers self)
       = length (supported_pairs (layers w) (adjacencies ls))
    /\ length (connective_layers self)
       + (length (warnings w') - length (warnings w))
       = length ls - 1.
Proof.
  intros Hchain Hne. destruct (nonempty_last ls Hne) as [lastl Hlast].
  destruct (init_facts ls ec lsp adc ew dr w lastl Hchain Hlast)
    as (self & w' & Hinit & Hself & Hwarn & _).
  exists self, w'. split; [done|]. split; [done|]. subst self.
  cbn [connective_layers]. rewrite length_seq. split; [done|].
  rewrite Hwarn, length_app, <- length_adjacencies.
  rewrite <- (diagnostics_and_supported (layers w) (adjacencies ls))
    by by apply adjacencies_live.
  lia.
Qed.

(** X2. Whatever the pairings, the display sequence holds every layer of the
    chain in chain order and every connective layer of the diagram in the
    order of the connective sequence, nothing else and nothing twice; it
    has N plus the number of connective layers elements. *)
Theorem display_sequence_holds_chain_and_connectives ls ec lsp adc ew dr w :
  chain w ls -> ls <> [] ->
  exists self w',
    NeuralNetwork_init ls ec lsp adc ew dr w = (Returns self, w')
    /\ layer_refs (all_layers self) = ls
    /\ connective_refs (all_layers self) = connective_layers self
    /\ NoDup (all_layers self)
    /\ length (all_layers self) = length ls + length (connective_layers self).
Proof.
  intros Hchain Hne. destruct (nonempty_last ls Hne) as [lastl Hlast].
  destruct (init_facts ls ec lsp adc ew dr w lastl Hchain Hlast)
    as (self & w' & Hinit & Hself & _).
  exists self, w'. split; [done|]. subst self.
  cbn [connective_layers all_layers].
  assert (layer_refs (display (layers w) (length (connectives w)) (adjacencies ls)
                        ++ [LayerRef lastl]) = ls) as HL
    by by apply layer_refs_display.
  assert (connective_refs
            (display (layers w) (length (connectives w)) (adjacencies ls)
               ++ [LayerRef lastl])
          = seq (length (connectives w))
                (length (supported_pairs (layers w) (adjacencies ls)))) as HC
    by (by rewrite connective_refs_display, length_supported_pairs).
  split; [done|]. split; [done|]. split.
  - apply NoDup_by_kind; [rewrite HL; by destruct Hchain|].
    rewrite HC. apply NoDup_seq.
  - rewrite <- HL at 2. rewrite <- HC.
    unfold layer_refs, connective_refs.
    generalize (display (layers w) (length (connectives w)) (adjacencies ls)
                  ++ [LayerRef lastl]).
    intros g. induction g as [|[r|r] g IH]; cbn; lia.
Qed.

(** ** The recentring, exactly *)

Lemma NoDup_not_in_take {A} (g : list A) i x :
  NoDup g -> g !! i = Some x -> x ∉ take i g.
Proof.
  intros Hnd Hx (j & Hj & Hji)%elem_of_take.
  pose proof (NoDup_lookup _ _ _ _ Hnd Hx Hj). lia.
Qed.

Lemma elem_of_take_S {A} (g : list A) i x y :
  g !! i = Some x -> y <> x -> y ∈ take (S i) g <-> y ∈ take i g.
Proof.
  intros Hx Hne. rewrite (take_S_r _ _ _ Hx), elem_of_app, list_elem_of_singleton.
  tauto.
Qed.

Lemma elem_of_take_S_here {A} (g : list A) i x :
  g !! i = Some x -> x ∈ take (S i) g.
Proof.
  intros Hx. rewrite (take_S_r _ _ _ Hx), elem_of_app, list_elem_of_singleton.
  by right.
Qed.

Lemma decide_iff_if {B} (P P' : Prop) `{Decision P} `{Decision P'} (x y : B) :
  (P <-> P') ->
  (if decide P then x else y) = (if decide P' then x else y).
Proof. intros HP. destruct (decide P), (decide P'); tauto. Qed.

(** Shifting the members of a group without repetition moves each member
    once and nothing else. *)
Lemma group_shift_spec (group : list MobRef) (v : Point) w :
  NoDup group -> Forall (live w) group ->
  exists w',
    for_each group (fun m => update_mob m (shift v)) w = (Returns tt, w')
    /\ warnings w' = warnings w
    /\ (forall r, layers w' !! r
          = (if decide (LayerRef r ∈ group) then map_layer (shift v) else id)
              <$> layers w !! r)
    /\ (forall r, connectives w' !! r
          = (if decide (ConnectiveRef r ∈ group)
             then map_connective (shift v) else id)
              <$> connectives w !! r).
Proof.
  intros Hnd Hlive.
  destruct (for_each_invariant
    (fun i w' =>
       warnings w' = warnings w
       /\ (forall r, layers w' !! r
             = (if decide (LayerRef r ∈ take i group)
                then map_layer (shift v) else id) <$> layers w !! r)
       /\ (forall r, connectives w' !! r
             = (if decide (ConnectiveRef r ∈ take i group)
                then map_connective (shift v) else id) <$> connectives w !! r))
    group (fun m => update_mob m (shift v)) w) as (w' & Hrun & HI).
  - rewrite take_0. split; [done|]. split; intros r.
    + rewrite decide_False by apply not_elem_of_nil. by rewrite option_fmap_id.
    + rewrite decide_False by apply not_elem_of_nil. by rewrite option_fmap_id.
  - intros i x w1 Hx (Hw & HL & HC).
    pose proof (NoDup_not_in_take _ _ _ Hnd Hx) as Hfresh.
    assert (live w x) as Hlx by (eapply Forall_lookup_1 in Hlive; eauto).
    destruct x as [r0|r0]; cbn [update_mob live] in *.
    + destruct (lookup_valid _ _ Hlx) as [l Hl].
      assert (layers w1 !! r0 = Some l) as Hl1.
      { rewrite HL, decide_False, Hl by done. done. }
      eexists. split; [by eapply update_layer_lookup|].
      cbn [layers connectives warnings]. split; [done|]. split; intros r.
      * destruct (decide (r0 = r)) as [->|Hne].
        -- rewrite list_lookup_alter, (decide_True _ _ (eq_refl r)), Hl1, Hl.
           by rewrite (decide_True (P := LayerRef r ∈ take (S i) group))
             by by apply elem_of_take_S_here.
        -- rewrite list_lookup_alter_ne, HL by done. f_equal.
           apply decide_iff_if. symmetry. apply (elem_of_take_S _ _ _ _ Hx). congruence.
      * rewrite HC. f_equal. apply decide_iff_if. symmetry.
        by apply (elem_of_take_S _ _ _ _ Hx).
    + destruct (lookup_valid _ _ Hlx) as [c Hc].
      assert (connectives w1 !! r0 = Some c) as Hc1.
      { rewrite HC, decide_False, Hc by done. done. }
      eexists. split; [by eapply update_connective_lookup|].
      cbn [layers connectives warnings]. split; [done|]. split; intros r.
      * rewrite HL. f_equal. apply decide_iff_if. symmetry.
        by apply (elem_of_take_S _ _ _ _ Hx).
      * destruct (decide (r0 = r)) as [->|Hne].
        -- rewrite list_lookup_alter, (decide_True _ _ (eq_refl r)), Hc1, Hc.
           by rewrite (decide_True (P := ConnectiveRef r ∈ take (S i) group))
             by by apply elem_of_take_S_here.
        -- rewrite list_lookup_alter_ne, HC by done. f_equal.
           apply decide_iff_if. symmetry. apply (elem_of_take_S _ _ _ _ Hx). congruence.
  - exists w'. split; [done|]. by rewrite take_ge in HI by lia.
Qed.

Lemma group_get_center_mobs group w :
  Forall (live w) group ->
  exists mobs,
    group_mobs w group mobs
    /\ group_get_center group w = (Returns (bounding_box_center mobs), w).
Proof.
  intros Hlive. unfold group_get_center.
  match goal with |- context [for_fold _ ?b _] => set (body := b) end.
  destruct (for_fold_invariant
              (fun i acc w' => w' = w /\ group_mobs w (take i group) acc)
              group body [] w)
    as (mobs & w' & Hrun & -> & Hmobs).
  - split; [done|]. rewrite take_0. constructor.
  - intros i m acc w1 Hm [-> Hacc].
    destruct (live_get_mob w m) as [x Hx].
    { eapply Forall_lookup_1 in Hlive; eauto. }
    subst body. cbn beta. step Hx. eexists _, _. split; [done|]. split; [done|].
    rewrite (take_S_r _ _ _ Hm). apply Forall2_app; [done|].
    by repeat constructor.
  - exists mobs. rewrite take_ge in Hmobs by lia. split; [done|]. by step Hrun.
Qed.

Lemma get_mob_shifted (group : list MobRef) v w w' m x :
  (forall r, layers w' !! r
     = (if decide (LayerRef r ∈ group) then map_layer (shift v) else id)
         <$> layers w !! r) ->
  (forall r, connectives w' !! r
     = (if decide (ConnectiveRef r ∈ group) then map_connective (shift v) else id)
         <$> connectives w !! r) ->
  m ∈ group -> get_mob m w = (Returns x, w) ->
  get_mob m w' = (Returns (shift v x), w').
Proof.
  intros HL HC Hin Hx. destruct m as [r|r]; cbn [get_mob] in *.
  - unfold bind, get_layer in Hx.
    destruct (layers w !! r) as [l|] eqn:Hl; [|done].
    injection Hx as <-.
    erewrite bind_returns; cycle 1.
    { apply get_layer_lookup. by rewrite HL, decide_True, Hl by done. }
    done.
  - unfold bind, get_connective in Hx.
    destruct (connectives w !! r) as [c|] eqn:Hc; [|done].
    injection Hx as <-.
    erewrite bind_returns; cycle 1.
    { apply get_connective_lookup. by rewrite HC, decide_True, Hc by done. }
    done.
Qed.

(** ** Bounding boxes under translation *)

Lemma foldl_Qmin_shift (v : Q) (rest : list (Q * Q)) (a a' : Q) :
  (a' == a + v)%Q ->
  (foldl (fun acc '(c', e') => Qmin acc (c' - e' / 2)) a'
         (map (fun ce => (ce.1 + v, ce.2)%Q) rest)
   == foldl (fun acc '(c', e') => Qmin acc (c' - e' / 2)) a rest + v)%Q.
Proof.
  revert a a'. induction rest as [|[c e] rest IH]; intros a a' Ha; [done|].
  cbn [map foldl fst snd]. apply IH.
  transitivity (Qmin (a + v) ((c - e / 2) + v)).
  - apply Q.min_compat; [done|lra].
  - apply Q.plus_min_distr_r.
Qed.

Lemma foldl_Qmax_shift (v : Q) (rest : list (Q * Q)) (a a' : Q) :
  (a' == a + v)%Q ->
  (foldl (fun acc '(c', e') => Qmax acc (c' + e' / 2)) a'
         (map (fun ce => (ce.1 + v, ce.2)%Q) rest)
   == foldl (fun acc '(c', e') => Qmax acc (c' + e' / 2)) a rest + v)%Q.
Proof.
  revert a a'. induction rest as [|[c e] rest IH]; intros a a' Ha; [done|].
  cbn [map foldl fst snd]. apply IH.
  transitivity (Qmax (a + v) ((c + e / 2) + v)).
  - apply Q.max_compat; [done|lra].
  - apply Q.plus_max_distr_r.
Qed.

Lemma interval_center_shift (v : Q) (ivs : list (Q * Q)) :
  ivs <> [] ->
  (interval_center (map (fun ce => (ce.1 + v, ce.2)%Q) ivs)
   == interval_center ivs + v)%Q.
Proof.
  destruct ivs as [|[c e] rest]; [done|]. intros _.
  cbn [map interval_center fst snd].
  pose proof (foldl_Qmin_shift v rest (c - e / 2) (c + v - e / 2)
                ltac:(lra)) as Hlo.
  pose proof (foldl_Qmax_shift v rest (c + e / 2) (c + v + e / 2)
                ltac:(lra)) as Hhi.
  set (lo' := foldl _ (c + v - e / 2)%Q _) in *.
  set (hi' := foldl _ (c + v + e / 2)%Q _) in *.
  set (lo := foldl _ (c - e / 2)%Q _) in *.
  set (hi := foldl _ (c + e / 2)%Q _) in *.
  clearbody lo' hi' lo hi. rewrite Hlo, Hhi. field.
Qed.

Lemma bounding_box_center_shift (v : Point) (mobs : list Mobject) :
  mobs <> [] ->
  peq (bounding_box_center (map (shift v) mobs))
      (padd (bounding_box_center mobs) v).
Proof.
  intros Hne. unfold bounding_box_center, peq. cbn [padd px py pz].
  rewrite !map_map.
  assert (forall (f : Mobject -> Q * Q), map f mobs <> []) as Hne'.
  { intros f. by destruct mobs. }
  split; [|split].
  - rewrite <- (interval_center_shift (px v) _ (Hne' _)), map_map. done.
  - rewrite <- (interval_center_shift (py v) _ (Hne' _)), map_map. done.
  - rewrite <- (interval_center_shift (pz v) _ (Hne' _)), map_map. done.
Qed.

Lemma peq_recentred (c c' p : Point) :
  peq c' (padd c (psub p c)) -> peq c' p.
Proof.
  unfold peq. destruct c, c', p. cbn [padd psub px py pz].
  intros (?&?&?). repeat split; lra.
Qed.

(** Moving a group without repetition to a point puts the centre of its
    bounding box there. *)
Lemma group_move_to_exact (group : list MobRef) (p : Point) w :
  NoDup group -> Forall (live w) group -> group <> [] ->
  exists mobs w' c',
    group_mobs w group mobs
    /\ group_move_to group p w = (Returns tt, w')
    /\ warnings w' = warnings w
    /\ (forall r, layers w' !! r
          = (if decide (LayerRef r ∈ group)
             then map_layer (shift (psub p (bounding_box_center mobs)))
             else id) <$> layers w !! r)
    /\ (forall r, connectives w' !! r
          = (if decide (ConnectiveRef r ∈ group)
             then map_connective (shift (psub p (bounding_box_center mobs)))
             else id) <$> connectives w !! r)
    /\ group_get_center group w' = (Returns c', w')
    /\ peq c' p.
Proof.
  intros Hnd Hlive Hne.
  destruct (group_get_center_mobs group w Hlive) as (mobs & Hmobs & Hcenter).
  set (v := psub p (bounding_box_center mobs)).
  destruct (group_shift_spec group v w Hnd Hlive) as (w' & Hrun & Hw & HL & HC).
  assert (group_mobs w' group (map (shift v) mobs)) as Hmobs'.
  { unfold group_mobs in *. apply Forall2_fmap_r.
    apply Forall2_same_length_lookup_2; [by eapply Forall2_length|].
    intros i m x Hm Hx'.
    pose proof (Forall2_lookup_lr _ _ _ _ _ _ Hmobs Hm Hx') as Hx. cbn in Hx.
    eapply get_mob_shifted; [exact HL|exact HC| |exact Hx].
    by eapply list_elem_of_lookup_2. }
  assert (Forall (live w') group) as Hlive'.
  { apply Forall_forall. intros m Hm.
    eapply Forall_forall in Hlive; [|exact Hm].
    destruct m as [r|r]; cbn in *.
    - apply lookup_lt_is_Some. rewrite HL.
      destruct (lookup_valid _ _ Hlive) as [l ->]. by eexists.
    - apply lookup_lt_is_Some. rewrite HC.
      destruct (lookup_valid _ _ Hlive) as [c ->]. by eexists. }
  destruct (group_get_center_mobs group w' Hlive') as (mobs' & Hm' & Hcenter').
  assert (mobs' = map (shift v) mobs) as ->.
  { apply list_eq_same_length with (length group);
      [symmetry; exact (Forall2_length _ _ _ Hmobs')
      |symmetry; exact (Forall2_length _ _ _ Hm')|].
    intros i x y Hi Hx Hy.
    destruct (lookup_valid group i Hi) as [m Hm].
    pose proof (Forall2_lookup_lr _ _ _ _ _ _ Hm' Hm Hx) as H1.
    pose proof (Forall2_lookup_lr _ _ _ _ _ _ Hmobs' Hm Hy) as H2.
    cbn in H1, H2. congruence. }
  exists mobs, w', (bounding_box_center (map (shift v) mobs)).
  split; [done|]. split.
  { unfold group_move_to. step Hcenter. exact Hrun. }
  split; [done|]. split; [done|]. split; [done|]. split; [done|].
  apply (peq_recentred (bounding_box_center mobs)).
  apply bounding_box_center_shift.
  intros ->. apply Forall2_length in Hmobs. by destruct group.
Qed.

Lemma display_NoDup L base ls lastl :
  NoDup ls -> last ls = Some lastl ->
  NoDup (display L base (adjacencies ls) ++ [LayerRef lastl]).
Proof.
  intros Hnd Hlast. apply NoDup_by_kind.
  - by rewrite layer_refs_display.
  - rewrite connective_refs_display. apply NoDup_seq.
Qed.

Lemma elem_of_layer_refs (group : list MobRef) r :
  r ∈ layer_refs group <-> LayerRef r ∈ group.
Proof.
  unfold layer_refs. rewrite list_elem_of_omap. split.
  - intros ([r'|r'] & Hin & Heq); [|done]. by injection Heq as ->.
  - intros Hin. by exists (LayerRef r).
Qed.

Lemma elem_of_connective_refs (group : list MobRef) r :
  r ∈ connective_refs group <-> ConnectiveRef r ∈ group.
Proof.
  unfold connective_refs. rewrite list_elem_of_omap. split.
  - intros ([r'|r'] & Hin & Heq); [done|]. by injection Heq as ->.
  - intros Hin. by exists (ConnectiveRef r).
Qed.

(** The constructor, with the exact effect of its recentring. *)
Lemma init_exact ls ec lsp adc ew dr w lastl :
  chain w ls -> last ls = Some lastl ->
  exists w1 w2 w' mobs c',
    _place_layers (mkNeuralNetwork ls ew ec lsp adc dr [] []) w = (Returns tt, w1)
    /\ layers w2 = layers w1
    /\ NeuralNetwork_init ls ec lsp adc ew dr w
       = (Returns
            (mkNeuralNetwork ls ew ec lsp adc dr
               (seq (length (connectives w))
                    (length (omap (dispatch_at (layers w)) (adjacencies ls))))
               (display (layers w) (length (connectives w)) (adjacencies ls)
                  ++ [LayerRef lastl])),
          w')
    /\ group_mobs w2
         (display (layers w) (length (connectives w)) (adjacencies ls)
            ++ [LayerRef lastl]) mobs
    /\ (forall r, layers w' !! r
          = (if decide (r ∈ ls)
             then map_layer (shift (psub ORIGIN (bounding_box_center mobs)))
             else id) <$> layers w1 !! r)
    /\ (forall r, r < length (connectives w) ->
          connectives w' !! r = connectives w !! r)
    /\ group_get_center
         (display (layers w) (length (connectives w)) (adjacencies ls)
            ++ [LayerRef lastl]) w' = (Returns c', w')
    /\ peq c' ORIGIN.
Proof.
  intros Hchain Hlast. pose proof Hchain as [Hnd Hwf].
  set (self0 := mkNeuralNetwork ls ew ec lsp adc dr [] []).
  set (ps := adjacencies ls). set (base := length (connectives w)).
  destruct (place_layers_spec self0 w Hchain)
    as (w1 & Hplace & Hc1 & Hw1 & Hshape & _).
  assert (chain w1 ls) as Hchain1.
  { split; [done|]. eapply Forall_impl; [exact Hwf|]. cbn.
    intros r Hr. by rewrite <- (Forall2_length _ _ _ Hshape). }
  pose proof (construct_spec self0 w1 lastl Hchain1 Hlast) as Hcons.
  cbn [input_layers self0] in Hcons. fold ps in Hcons.
  rewrite Hc1, Hw1 in Hcons. fold base in Hcons.
  rewrite <- (omap_ext_in _ _ ps (fun p => dispatch_at_same_shape _ _ p Hshape)),
    <- (omap_ext_in _ _ ps (fun p => diagnostic_for_same_shape _ _ p Hshape)),
    <- (display_same_shape _ _ base ps Hshape) in Hcons.
  set (w2 := mkWorld _ _ _) in Hcons.
  set (all := display (layers w) base ps ++ [LayerRef lastl]) in *.
  assert (NoDup all) as Hndall by by apply display_NoDup.
  assert (layer_refs all = ls) as Hrefs by by apply layer_refs_display.
  assert (Forall (live w2) all) as Hlive.
  { apply Forall_forall. intros m Hm.
    apply elem_of_app in Hm as [Hm|Hm].
    - apply elem_of_display in Hm as [(p & Hp & ->)|(c & -> & Hc)]; cbn.
      + apply elem_of_adjacencies in Hp as [Hp _].
        destruct Hchain1 as [_ Hwf1]. by eapply Forall_forall in Hwf1.
      + rewrite length_app, length_map, (length_connective_for _ self0).
        rewrite <- (omap_ext_in _ _ ps
                      (fun p => dispatch_at_same_shape _ _ p Hshape)).
        unfold base in Hc. lia.
    - apply list_elem_of_singleton in Hm as ->. cbn.
      destruct Hchain1 as [_ Hwf1]. eapply Forall_forall in Hwf1; [done|].
      rewrite last_lookup in Hlast. by eapply list_elem_of_lookup_2. }
  destruct (group_move_to_exact all ORIGIN w2 Hndall Hlive)
    as (mobs & w' & c' & Hmobs & Hmove & _ & HL & HC & Hcenter & Hc').
  { unfold all. by destruct (display _ _ _). }
  exists w1, w2, w', mobs, c'. split; [done|]. split; [done|]. split.
  { unfold NeuralNetwork_init. rewrite (VGroup_NoDup ls Hnd).
    fold self0. step Hplace. step Hcons. cbn beta iota. by step Hmove. }
  split; [done|]. split.
  { intros r. rewrite HL. f_equal. apply decide_iff_if.
    by rewrite <- elem_of_layer_refs, Hrefs. }
  split; [|done].
  intros r Hr. rewrite HC, decide_False.
  - rewrite option_fmap_id. cbn. by rewrite lookup_app_l.
  - intros Hin. apply elem_of_app in Hin as [Hin|Hin].
    + apply elem_of_display in Hin as [(p & _ & Heq)|(c & Heq & Hc)]; [done|].
      injection Heq as <-. unfold base in Hc. lia.
    + by apply list_elem_of_singleton in Hin.
Qed.

(** X3. Construction touches nothing but the diagram: a layer of the store
    that is not in the chain, a connective layer that was there before, and
    the messages already logged are after construction what they were
    before. *)
Theorem construction_leaves_other_objects_alone ls ec lsp adc ew dr w :
  chain w ls -> ls <> [] ->
  exists self w',
    NeuralNetwork_init ls ec lsp adc ew dr w = (Returns self, w')
    /\ (forall r, r ∉ ls -> layers w' !! r = layers w !! r)
    /\ take (length (connectives w)) (connectives w') = connectives w
    /\ take (length (warnings w)) (warnings w') = warnings w.
Proof.
  intros Hchain Hne. destruct (nonempty_last ls Hne) as [lastl Hlast].
  destruct (init_exact ls ec lsp adc ew dr w lastl Hchain Hlast)
    as (w1 & w2 & w' & mobs & c' & Hplace & _ & Hinit & _ & HL & HC & _).
  destruct (place_layers_spec (mkNeuralNetwork ls ew ec lsp adc dr [] []) w Hchain)
    as (w1' & Hplace' & _ & _ & _ & _ & Hout & _).
  rewrite Hplace in Hplace'. injection Hplace' as <-.
  destruct (init_facts ls ec lsp adc ew dr w lastl Hchain Hlast)
    as (self & w'' & Hinit' & _ & Hwarn & _).
  rewrite Hinit in Hinit'. injection Hinit' as <- <-.
  eexists _, w'. split; [exact Hinit|]. split; [|split].
  - intros r Hr. rewrite HL, decide_False, option_fmap_id by done.
    by apply Hout.
  - apply list_eq. intros i. rewrite lookup_take.
    destruct (decide (i < length (connectives w))) as [Hi|Hi]; [by apply HC|].
    symmetry. apply lookup_ge_None. lia.
  - by rewrite Hwarn, take_app_length.
Qed.

(** X6. The spacing of the layout survives the recentring: in the
    constructed diagram every layer still sits at its predecessor's centre
    shifted horizontally by 0.05 * frame_width plus the two half-widths,
    and the widths are the ones the layers had before construction. *)
Theorem spacing_survives_recentring ls ec lsp adc ew dr w :
  chain w ls -> ls <> [] ->
  exists self w',
    NeuralNetwork_init ls ec lsp adc ew dr w = (Returns self, w')
    /\ forall i p c lp0 lc0,
         ls !! i = Some p -> ls !! S i = Some c ->
         layers w !! p = Some lp0 -> layers w !! c = Some lc0 ->
         exists lp lc,
           layers w' !! p = Some lp /\ layers w' !! c = Some lc
           /\ width (layer_mob lp) = width (layer_mob lp0)
           /\ width (layer_mob lc) = width (layer_mob lc0)
           /\ peq (center (layer_mob lc))
                  (padd (center (layer_mob lp))
                        (mkPoint (frame_width * 0.05
                                  + (width (layer_mob lp0) / 2
                                     + width (layer_mob lc0) / 2)) 0 0)).
Proof.
  intros Hchain Hne. destruct (nonempty_last ls Hne) as [lastl Hlast].
  destruct (init_exact ls ec lsp adc ew dr w lastl Hchain Hlast)
    as (w1 & w2 & w' & mobs & c' & Hplace & _ & Hinit & _ & HL & _).
  destruct (place_layers_spec (mkNeuralNetwork ls ew ec lsp adc dr [] []) w Hchain)
    as (w1' & Hplace' & _ & _ & Hshape & _ & _ & _ & Hafter).
  rewrite Hplace in Hplace'. injection Hplace' as <-.
  eexists _, w'. split; [exact Hinit|].
  intros i p c lp0 lc0 Hp Hc Hlp0 Hlc0.
  destruct (Hafter i p c Hp Hc) as (lp & lc & Hlp & Hlc & Hpl).
  destruct (Forall2_lookup_lr _ _ _ _ _ _ Hshape Hlp0 Hlp) as (_ & Hwp & _).
  destruct (Forall2_lookup_lr _ _ _ _ _ _ Hshape Hlc0 Hlc) as (_ & Hwc & _).
  set (v := psub ORIGIN (bounding_box_center mobs)) in *.
  exists (map_layer (shift v) lp), (map_layer (shift v) lc).
  split; [|split; [|split; [|split]]].
  - rewrite HL, decide_True, Hlp by (by eapply list_elem_of_lookup_2). done.
  - rewrite HL, decide_True, Hlc by (by eapply list_elem_of_lookup_2). done.
  - done.
  - done.
  - unfold placed_after, spacing in Hpl. rewrite <- Hwp, <- Hwc in Hpl.
    destruct Hpl as (Hx & Hy & Hz).
    unfold peq. cbn [map_layer layer_mob shift center padd px py pz] in *.
    set (s := (frame_width * 0.05
               + (width (layer_mob lp0) / 2 + width (layer_mob lc0) / 2))%Q) in *.
    clearbody s. repeat split; lra.
Qed.

(** X7. After construction the bounding box of the display sequence, layers
    and connective layers together, is centred at the origin. *)
Theorem diagram_is_centred_at_origin ls ec lsp adc ew dr w :
  chain w ls -> ls <> [] ->
  exists self w' c,
    NeuralNetwork_init ls ec lsp adc ew dr w = (Returns self, w')
    /\ group_get_center (all_layers self) w' = (Returns c, w')
    /\ peq c ORIGIN.
Proof.
  intros Hchain Hne. destruct (nonempty_last ls Hne) as [lastl Hlast].
  destruct (init_exact ls ec lsp adc ew dr w lastl Hchain Hlast)
    as (w1 & w2 & w' & mobs & c' & _ & _ & Hinit & _ & _ & _ & Hcenter & Hc').
  eexists _, w', c'. split; [exact Hinit|]. by split.
Qed.

(** X9. A diagram of a single layer has no connective layer and logs
    nothing, its display sequence is that layer, construction moves the
    layer's centre to the origin, and its forward-pass animation, for a
    positive run time, is the group of that layer's forward pass alone. *)
Theorem single_layer_diagram a ec lsp adc ew dr w :
  a < length (layers w) ->
  exists self w' l,
    NeuralNetwork_init [a] ec lsp adc ew dr w = (Returns self, w')
    /\ connective_layers self = []
    /\ all_layers self = [LayerRef a]
    /\ warnings w' = warnings w
    /\ layers w' !! a = Some l
    /\ peq (center (layer_mob l)) ORIGIN
    /\ forall run_time passing_flash,
         (0 < default 10 run_time)%Q ->
         make_forward_pass_animation self run_time passing_flash w'
         = (Returns
              (AnimationGroup
                 [ForwardPass (LayerRef a) (forward_pass_run_time (layer_mob l))]
                 (default 10%Q run_time) 1),
            w').
Proof.
  intros Ha.
  assert (chain w [a]) as Hchain.
  { split; [apply NoDup_singleton|by repeat constructor]. }
  destruct (init_exact [a] ec lsp adc ew dr w a Hchain eq_refl)
    as (w1 & w2 & w' & mobs & c' & Hplace & Hw2 & Hinit & Hmobs & HL & _).
  destruct (init_facts [a] ec lsp adc ew dr w a Hchain eq_refl)
    as (self & w'' & Hinit' & _ & Hwarn & _).
  rewrite Hinit in Hinit'. injection Hinit' as <- <-.
  change (adjacencies [a]) with (@nil (nat * nat)) in *.
  cbn [display omap list_omap app length seq] in *.
  apply Forall2_cons_inv_l in Hmobs as (x & rest & Hx & Hrest & ->).
  apply Forall2_nil_inv_l in Hrest as ->.
  cbn [get_mob] in Hx. unfold bind, get_layer in Hx. rewrite Hw2 in Hx.
  destruct (layers w1 !! a) as [l1|] eqn:Hl1; [|done].
  injection Hx as <-.
  set (v := psub ORIGIN (bounding_box_center [layer_mob l1])) in *.
  assert (layers w' !! a = Some (map_layer (shift v) l1)) as Hl.
  { rewrite HL, decide_True, Hl1 by apply list_elem_of_here. done. }
  eexists _, w', _. split; [exact Hinit|]. cbn [connective_layers all_layers].
  split; [done|]. split; [done|]. split; [by rewrite Hwarn, app_nil_r|].
  split; [exact Hl|]. split.
  - unfold peq, v, bounding_box_center, interval_center.
    cbn [map map_layer layer_mob shift center padd psub foldl ORIGIN px py pz].
    repeat split; field.
  - intros run_time passing_flash _. unfold make_forward_pass_animation.
    cbn [input_layers connective_layers slice_but_last length Nat.sub take
         enumerate seq map zip zip_with for_fold].
    unfold bind at 1. cbn [ret].
    step (getitem_last [a] a w' eq_refl).
    by step (layer_make_forward_pass_animation_lookup _ _ _ Hl).
Qed.

(** ** Further properties of the layout *)

Lemma half_nonneg (x : Q) : (0 <= x)%Q -> (0 <= x / 2)%Q.
Proof. intros H. apply Qle_shift_div_l; [reflexivity|]. lra. Qed.

(** X4. On a canvas of non-negative width and with layers of non-negative
    width, the layout separates every two layers of the chain, adjacent or
    not: the later one's centre is to the right of the earlier one's by at
    least the two half-widths. *)
Theorem layout_separates_every_pair (self : NeuralNetwork) w :
  chain w (input_layers self) ->
  (0 <= frame_width)%Q ->
  (forall r l, r ∈ input_layers self -> layers w !! r = Some l ->
     (0 <= width (layer_mob l))%Q) ->
  exists w',
    _place_layers self w = (Returns tt, w')
    /\ forall i j p c lp0 lc0,
         i < j ->
         input_layers self !! i = Some p -> input_layers self !! j = Some c ->
         layers w !! p = Some lp0 -> layers w !! c = Some lc0 ->
         exists lp lc,
           layers w' !! p = Some lp /\ layers w' !! c = Some lc
           /\ (width (layer_mob lp0) / 2 + width (layer_mob lc0) / 2
               <= px (center (layer_mob lc)) - px (center (layer_mob lp)))%Q.
Proof.
  intros Hchain Hfw Hwidth. pose proof Hchain as [Hnd Hwf].
  destruct (place_layers_spec self w Hchain)
    as (w' & Hrun & _ & _ & Hshape & _ & _ & _ & Hafter).
  exists w'. split; [done|].
  intros i j p c lp0 lc0 Hij Hp. revert c lc0.
  induction j as [|j IH]; intros c lc0 Hc Hlp0 Hlc0; [lia|].
  destruct (lookup_valid (input_layers self) j) as [q Hq].
  { apply lookup_lt_Some in Hc. lia. }
  destruct (Hafter j q c Hq Hc) as (lq & lc & Hlq & Hlc & Hpl).
  destruct (Forall2_lookup_r _ _ _ _ _ Hshape Hlq) as (lq0 & Hlq0 & _ & Hwq & _).
  destruct (Forall2_lookup_lr _ _ _ _ _ _ Hshape Hlc0 Hlc) as (_ & Hwc & _).
  assert (0 <= width (layer_mob lq0) / 2)%Q as Hq0.
  { apply half_nonneg. eapply Hwidth; [|exact Hlq0].
    by eapply list_elem_of_lookup_2. }
  assert (0 <= width (layer_mob lc0) / 2)%Q as Hc0.
  { apply half_nonneg. eapply Hwidth; [|exact Hlc0].
    by eapply list_elem_of_lookup_2. }
  destruct Hpl as (Hx & _ & _). unfold spacing in Hx.
  rewrite <- Hwq, <- Hwc in Hx. cbn [padd px] in Hx.
  destruct (decide (i = j)) as [->|Hne].
  - rewrite Hq in Hp. injection Hp as <-.
    rewrite Hlq0 in Hlp0. injection Hlp0 as <-.
    exists lq, lc. split; [done|]. split; [done|]. lra.
  - destruct (IH ltac:(lia) q lq0 Hq Hlp0 Hlq0) as (lp & lq' & Hlp & Hlq' & Hsep).
    rewrite Hlq in Hlq'. injection Hlq' as <-.
    exists lp, lc. split; [done|]. split; [done|]. lra.
Qed.

(** X5. The layout is idempotent: running it again on the layers it has
    placed leaves every layer where it is (its centre up to equality of
    rationals, everything else identically) and changes nothing else. *)
Theorem layout_is_idempotent (self : NeuralNetwork) w :
  chain w (input_layers self) ->
  exists w' w'',
    _place_layers self w = (Returns tt, w')
    /\ _place_layers self w' = (Returns tt, w'')
    /\ Forall2 layer_equiv (layers w') (layers w'')
    /\ connectives w'' = connectives w'
    /\ warnings w'' = warnings w'.
Proof.
  intros Hchain. pose proof Hchain as [Hnd Hwf].
  destruct (place_layers_spec self w Hchain)
    as (w' & Hrun & _ & _ & Hshape & Hz & _ & _ & Hafter).
  assert (chain w' (input_layers self)) as Hchain'.
  { split; [done|]. eapply Forall_impl; [exact Hwf|]. cbn.
    intros r Hr. by rewrite <- (Forall2_length _ _ _ Hshape). }
  destruct (place_layers_spec self w' Hchain')
    as (w'' & Hrun' & Hc' & Hw' & Hshape' & Hz' & Hout' & Hfirst' & Hafter').
  exists w', w''. split; [done|]. split; [done|]. split; [|done].
  assert (forall i r l' l'',
            input_layers self !! i = Some r ->
            layers w' !! r = Some l' -> layers w'' !! r = Some l'' ->
            peq (center (layer_mob l'')) (center (layer_mob l'))) as Hcentres.
  { induction i as [|i IH]; intros r l' l'' Hr Hl' Hl''.
    - destruct (Hfirst' r l' Hr Hl') as (l & Hl & Hc).
      rewrite Hl'' in Hl. injection Hl as <-. rewrite Hc. by repeat split.
    - destruct (lookup_valid (input_layers self) i) as [p Hp].
      { apply lookup_lt_Some in Hr. lia. }
      destruct (Hafter i p r Hp Hr) as (lp1 & lc1 & Hlp1 & Hlc1 & Hpl1).
      destruct (Hafter' i p r Hp Hr) as (lp2 & lc2 & Hlp2 & Hlc2 & Hpl2).
      rewrite Hl' in Hlc1. injection Hlc1 as <-.
      rewrite Hl'' in Hlc2. injection Hlc2 as <-.
      destruct (IH p lp1 lp2 Hp Hlp1 Hlp2) as (Hx & Hy & Hz0).
      destruct (Forall2_lookup_lr _ _ _ _ _ _ Hshape' Hlp1 Hlp2) as (_ & Hwp & _).
      destruct (Forall2_lookup_lr _ _ _ _ _ _ Hshape' Hl' Hl'') as (_ & Hwc & _).
      unfold placed_after, spacing in Hpl1, Hpl2. rewrite <- Hwp, <- Hwc in Hpl2.
      destruct Hpl1 as (?&?&?). destruct Hpl2 as (?&?&?).
      cbn [padd px py pz] in *.
      set (s := (frame_width * 0.05
                 + (width (layer_mob lp1) / 2 + width (layer_mob l') / 2))%Q) in *.
      clearbody s. repeat split; lra. }
  apply Forall2_same_length_lookup_2; [by eapply Forall2_length|].
  intros r l' l'' Hl' Hl''.
  destruct (decide (r ∈ input_layers self)) as [Hin|Hin].
  - destruct (Forall2_lookup_lr _ _ _ _ _ _ Hshape' Hl' Hl'')
      as (Hclass & ? & ? & ? & ? & ?).
    apply list_elem_of_lookup in Hin as [i Hi].
    assert (r ∈ input_layers self) as Hin by by eapply list_elem_of_lookup_2.
    split; [done|]. split.
    + repeat split; try done.
      by rewrite (Hz r l' Hin Hl'), (Hz' r l'' Hin Hl'').
    + destruct (Hcentres i r l' l'' Hi Hl' Hl'') as (?&?&?).
      repeat split; lra.
  - rewrite (Hout' r Hin), Hl' in Hl''. injection Hl'' as <-.
    split; [done|]. split; [apply mob_moved_refl|by repeat split].
Qed.

(** ** Further properties of the forward pass *)

Lemma interleave_forward_pass_order (ls conn : list ref) lastl :
  last ls = Some lastl -> length conn = length ls - 1 ->
  interleave (LayerRef <$> ls) (ConnectiveRef <$> conn)
  = forward_pass_order ls conn lastl.
Proof.
  unfold forward_pass_order, slice_but_last.
  revert conn. induction ls as [|a ls IH]; intros conn Hlast Hlen; [done|].
  destruct ls as [|b ls].
  - destruct conn; [|done]. cbn in *. by injection Hlast as ->.
  - destruct conn as [|c conn]; [done|].
    cbn [length Nat.sub] in *. rewrite Nat.sub_0_r in *.
    cbn [fmap list_fmap interleave take zip zip_with flat_map app fst snd].
    do 2 f_equal.
    rewrite <- (IH conn Hlast) by (cbn [length]; lia).
    done.
Qed.

Lemma length_omap_full {A B} (f : A -> option B) (l : list A) :
  length (omap f l) = length l -> Forall (fun x => f x <> None) l.
Proof.
  induction l as [|x l IH]; cbn; [constructor|].
  destruct (f x) eqn:E; cbn; intros H.
  - constructor; [by rewrite E|]. apply IH. lia.
  - pose proof (length_omap_le f l). lia.
Qed.

(** The animations the loop of [make_forward_pass_animation] collects. *)
Lemma forward_pass_content (self : NeuralNetwork) w lastl :
  Forall (fun r => r < length (layers w)) (input_layers self) ->
  Forall (fun r => r < length (connectives w)) (connective_layers self) ->
  last (input_layers self) = Some lastl ->
  length (input_layers self) - 1 <= length (connective_layers self) ->
  exists animations,
    Forall2 (forward_pass_of w)
            (forward_pass_order (input_layers self) (connective_layers self) lastl)
            animations
    /\ forall run_time passing_flash,
         make_forward_pass_animation self run_time passing_flash w
         = (Returns (AnimationGroup animations (default 10%Q run_time) 1), w).
Proof.
  intros HL HC Hlast Hlen.
  unfold make_forward_pass_animation. cbv zeta.
  set (items := slice_but_last (input_layers self)).
  set (conn := connective_layers self) in *.
  assert (length items = length (input_layers self) - 1) as Hitems
    by apply length_slice_but_last.
  match goal with |- context [for_fold _ ?b _] => set (body := b) end.
  destruct (for_fold_invariant
              (fun i acc w' =>
                 w' = w
                 /\ Forall2 (forward_pass_of w)
                      (flat_map (fun lc => [LayerRef lc.1; ConnectiveRef lc.2])
                                (take i (zip items conn)))
                      acc)
              (enumerate items) body [] w)
    as (animations & w' & Hloop & -> & Hall).
  - split; [done|]. rewrite take_0. constructor.
  - intros i [idx r] acc w1 Hx [-> Hacc].
    pose proof (lookup_lt_Some _ _ _ Hx) as Hi. rewrite length_enumerate in Hi.
    destruct (lookup_valid items i Hi) as [r' Hr'].
    rewrite (lookup_enumerate _ _ _ Hr') in Hx. injection Hx as <- <-.
    assert (r' ∈ input_layers self) as Hin.
    { unfold items, slice_but_last in Hr'.
      rewrite lookup_take in Hr'. case_decide; [|done].
      by eapply list_elem_of_lookup_2. }
    destruct (lookup_valid (layers w) r') as [l Hl].
    { by eapply Forall_forall in HL. }
    destruct (lookup_valid conn i ltac:(lia)) as [c Hc].
    destruct (lookup_valid (connectives w) c) as [cn Hcn].
    { eapply Forall_lookup_1 in HC; eauto. }
    subst body. cbn beta iota.
    step (layer_make_forward_pass_animation_lookup _ _ _ Hl).
    step (getitem_lookup _ _ _ w Hc).
    step (connective_make_forward_pass_animation_lookup _ _ _ Hcn).
    eexists _, _. split; [done|]. split; [done|].
    assert (zip items conn !! i = Some (r', c)) as Hz by by apply lookup_zip_Some.
    rewrite (take_S_r _ _ _ Hz), flat_map_app. cbn [flat_map app fst snd].
    rewrite <- app_assoc. apply Forall2_app; [done|].
    constructor; [|constructor; [|constructor]].
    + exists (layer_mob l). split; [|done]. cbn [get_mob].
      by step (get_layer_lookup _ _ _ Hl).
    + exists (conn_mob cn). split; [|done]. cbn [get_mob].
      by step (get_connective_lookup _ _ _ Hcn).
  - rewrite take_ge in Hall
      by (rewrite length_enumerate, length_zip_with; lia).
    destruct (lookup_valid (layers w) lastl) as [l Hl].
    { eapply Forall_forall in HL; [done|].
      rewrite last_lookup in Hlast. by eapply list_elem_of_lookup_2. }
    eexists. split.
    + unfold forward_pass_order. fold items.
      apply Forall2_app; [exact Hall|]. constructor; [|constructor].
      exists (layer_mob l). split; [|done]. cbn [get_mob].
      by step (get_layer_lookup _ _ _ Hl).
    + intros run_time passing_flash.
      step Hloop. step (getitem_last _ _ w Hlast).
      by step (layer_make_forward_pass_animation_lookup _ _ _ Hl).
Qed.

(** X8. When every adjacency is supported, the forward-pass animation of
    the constructed diagram, for a positive run time, plays the forward pass
    of each element of the display sequence, in display order: each layer,
    then the connective layer that leaves it, up to the last layer. *)
Theorem forward_pass_follows_display_order ls ec lsp adc ew dr w :
  chain w ls -> ls <> [] ->
  Forall (fun p => dispatch_at (layers w) p <> None) (adjacencies ls) ->
  exists self w' animations,
    NeuralNetwork_init ls ec lsp adc ew dr w = (Returns self, w')
    /\ Forall2 (forward_pass_of w') (all_layers self) animations
    /\ forall run_time passing_flash,
         (0 < default 10 run_time)%Q ->
         make_forward_pass_animation self run_time passing_flash w'
         = (Returns (AnimationGroup animations (default 10%Q run_time) 1), w').
Proof.
  intros Hchain Hne Hall. destruct (nonempty_last ls Hne) as [lastl Hlast].
  destruct (init_facts ls ec lsp adc ew dr w lastl Hchain Hlast)
    as (self & w' & Hinit & Hself & _ & _ & _ & _ & _ & _ & HL & HC).
  assert (length (connective_layers self) = length ls - 1) as Hlen.
  { subst self. cbn [connective_layers].
    by rewrite length_seq, length_supported_pairs, length_omap_all,
      length_adjacencies. }
  assert (input_layers self = ls) as Hin by by subst self.
  destruct (forward_pass_content self w' lastl HL HC)
    as (animations & Hcontent & Hrun); [by rewrite Hin|rewrite Hin; lia|].
  exists self, w', animations. split; [done|].
  split; [|intros run_time passing_flash _; apply Hrun].
  rewrite Hin, <- (interleave_forward_pass_order ls _ lastl Hlast Hlen) in Hcontent.
  replace (all_layers self)
    with (interleave (LayerRef <$> ls) (ConnectiveRef <$> connective_layers self));
    [done|].
  subst self. cbn [all_layers connective_layers] in *.
  rewrite length_seq in Hlen. rewrite Hlen.
  symmetry. by apply display_interleave.
Qed.

(** X12. For a positive run time, the forward-pass animation of a
    constructed diagram is returned exactly when every adjacency of the
    chain has a supported pairing. *)
Theorem forward_pass_returns_iff_all_supported ls ec lsp adc ew dr w :
  chain w ls -> ls <> [] ->
  exists self w',
    NeuralNetwork_init ls ec lsp adc ew dr w = (Returns self, w')
    /\ forall run_time passing_flash,
         (0 < default 10 run_time)%Q ->
         ((exists g,
             make_forward_pass_animation self run_time passing_flash w'
             = (Returns g, w'))
          <-> Forall (fun p => dispatch_at (layers w) p <> None) (adjacencies ls)).
Proof.
  intros Hchain Hne. destruct (nonempty_last ls Hne) as [lastl Hlast].
  destruct (init_facts ls ec lsp adc ew dr w lastl Hchain Hlast)
    as (self & w' & Hinit & Hself & _ & _ & _ & _ & _ & _ & HL & HC).
  assert (input_layers self = ls) as Hin by by subst self.
  assert (length (connective_layers self)
          = length (omap (dispatch_at (layers w)) (adjacencies ls))) as Hlen.
  { subst self. cbn [connective_layers].
    by rewrite length_seq, length_supported_pairs. }
  exists self, w'. split; [done|]. intros run_time passing_flash _. split.
  - intros [g Hg]. apply length_omap_full.
    pose proof (length_omap_le (dispatch_at (layers w)) (adjacencies ls)) as Hle.
    destruct (decide (length (connective_layers self) < length ls - 1))
      as [Hshort|Hfull].
    + rewrite (forward_pass_fails self run_time passing_flash w' HL HC) in Hg;
        [done|by rewrite Hin].
    + rewrite length_adjacencies in *. lia.
  - intros Hall.
    destruct (forward_pass_ok self run_time passing_flash w' lastl HL HC)
      as (animations & Hrun & _); [by rewrite Hin| |by eexists].
    rewrite Hin, Hlen, length_omap_all, length_adjacencies by done. done.
Qed.

(** ** Further properties of the subclass *)

(** X10. A [FeedForwardNeuralNetwork] of no node counts cannot be built:
    no layer is created and the constructor raises, as the base class does
    on an empty layer sequence. *)
Theorem feed_forward_network_needs_a_layer node_radius node_color kwargs w :
  FeedForwardNeuralNetwork_init [] node_radius node_color kwargs w
  = (Raises IndexError, w).
Proof.
  unfold FeedForwardNeuralNetwork_init. cbn [for_fold].
  unfold bind at 1. cbn [ret]. apply init_empty.
Qed.

(** X11. Building a [FeedForwardNeuralNetwork] leaves the objects already in
    the store as they were, and every connective layer of the new diagram
    is drawn with the [edge_width] keyword argument, 1.5 when it is not
    given. *)
Theorem feed_forward_network_is_fresh (layer_node_count : list Z) node_radius
    node_color kwargs w :
  layer_node_count <> [] ->
  exists self w',
    FeedForwardNeuralNetwork_init layer_node_count node_radius node_color kwargs w
    = (Returns self, w')
    /\ take (length (layers w)) (layers w') = layers w
    /\ take (length (connectives w)) (connectives w') = connectives w
    /\ edge_width self = default 1.5%Q (kw_edge_width kwargs)
    /\ (forall r, r ∈ connective_layers self ->
          exists c, connectives w' !! r = Some c
                    /\ conn_style c = default 1.5%Q (kw_edge_width kwargs)).
Proof.
  intros Hne.
  set (mobs := map (fun n => FeedForwardLayer_mob n node_color node_radius)
                   layer_node_count).
  set (k := length layer_node_count).
  set (base := length (layers w)).
  set (ls := seq base k).
  set (wA := mkWorld (layers w ++ map (mkLayer (mkClass FeedForwardLayer [])) mobs)
                     (connectives w) (warnings w)).
  assert (k = length mobs) as Hk by (unfold mobs; by rewrite length_map).
  assert (0 < k) as Hpos by (unfold k; destruct layer_node_count; [done|cbn; lia]).
  assert (chain wA ls) as Hchain.
  { split; [apply NoDup_seq|]. apply Forall_forall.
    intros r [? ?]%elem_of_seq. cbn. rewrite length_app, length_map. lia. }
  assert (ls <> []) as Hls by (unfold ls; destruct k; [lia|done]).
  destruct (nonempty_last ls Hls) as [lastl Hlast].
  set (ec := default WHITE (kw_edge_color kwargs)).
  set (lsp := default 0.8%Q (kw_layer_spacing kwargs)).
  set (adc := default RED (kw_animation_dot_color kwargs)).
  set (ew := default 1.5%Q (kw_edge_width kwargs)).
  set (dr := default 0.03%Q (kw_dot_radius kwargs)).
  destruct (init_exact ls ec lsp adc ew dr wA lastl Hchain Hlast)
    as (w1 & w2 & w' & ms & c' & Hplace & _ & Hinit & _ & HL & HC & _).
  destruct (place_layers_spec (mkNeuralNetwork ls ew ec lsp adc dr [] []) wA Hchain)
    as (w1' & Hplace' & _ & _ & _ & _ & Hout & _).
  rewrite Hplace in Hplace'. injection Hplace' as <-.
  destruct (init_facts ls ec lsp adc ew dr wA lastl Hchain Hlast)
    as (self & w'' & Hinit' & Hself & _ & _ & _ & _ & Hbuilt & _).
  rewrite Hinit in Hinit'. injection Hinit' as Hself' <-.
  exists self, w'. split.
  { unfold FeedForwardNeuralNetwork_init.
    erewrite bind_returns; [rewrite <- Hself'; exact Hinit|].
    rewrite new_layers_spec. cbn [app]. fold k base ls. f_equal.
    unfold wA, mobs. by rewrite map_map. }
  split; [|split; [|split]].
  - apply list_eq. intros i. rewrite lookup_take.
    destruct (decide (i < base)) as [Hi|Hi].
    + assert (i ∉ ls) as Hout_i by (intros [? ?]%elem_of_seq; lia).
      rewrite HL, decide_False, option_fmap_id by done.
      rewrite (Hout i Hout_i). cbn. by rewrite lookup_app_l.
    + symmetry. apply lookup_ge_None. unfold base in Hi. lia.
  - apply list_eq. intros i. rewrite lookup_take.
    destruct (decide (i < length (connectives w))) as [Hi|Hi]; [by apply HC|].
    symmetry. apply lookup_ge_None. lia.
  - by subst self.
  - intros r Hr. subst self. cbn [connective_layers] in *.
    apply elem_of_seq in Hr as [Hr1 Hr2].
    change (connectives wA) with (connectives w) in *.
    assert (r - length (connectives w)
            < length (supported_pairs (layers wA) (adjacencies ls))) as Hlt.
    { rewrite length_supported_pairs. unfold wA. cbn [layers]. lia. }
    destruct (lookup_valid _ _ Hlt) as [[p kind] Hpk].
    destruct (Forall2_lookup_l _ _ _ _ _ Hbuilt Hpk)
      as (c & Hc & _ & _ & _ & Hstyle & _).
    rewrite lookup_drop in Hc. replace (_ + _) with r in Hc by lia.
    exists c. split; [done|].
    apply list_elem_of_lookup_2, elem_of_supported_pairs in Hpk as [Hp Hkind].
    unfold ls, base in Hp. rewrite Hk in Hp.
    assert (dispatch_at (layers wA) p = Some FeedForwardToFeedForward) as Hff
      by exact (dispatch_at_feed_forward _ _ _ Hp).
    assert (kind = FeedForwardToFeedForward) as -> by congruence.
    exact Hstyle.
Qed.

(** ** What the methods read and what they leave alone *)

Lemma read_only_ret {A} (a : A) : read_only (ret a).
Proof. by intros w. Qed.

Lemma read_only_raise {A} e : read_only (@raise A e).
Proof. by intros w. Qed.

Lemma read_only_bind {A B} (m : M A) (k : A -> M B) :
  read_only m -> (forall a, read_only (k a)) -> read_only (bind m k).
Proof.
  intros Hm Hk w. unfold bind. specialize (Hm w).
  destruct (m w) as [[a|e] w1]; cbn in Hm; subst w1; [apply Hk|done].
Qed.

Lemma read_only_for_fold {A St} (xs : list A) (body : A -> St -> M St) acc :
  (forall x a, read_only (body x a)) -> read_only (for_fold xs body acc).
Proof.
  intros Hbody. revert acc.
  induction xs as [|x xs IH]; intros acc; cbn [for_fold].
  - apply read_only_ret.
  - apply read_only_bind; [apply Hbody|apply IH].
Qed.

Lemma read_only_getitem {A} (group : list A) i : read_only (getitem group i).
Proof.
  unfold getitem. cbv zeta.
  destruct (_ || _)%bool; [apply read_only_raise|].
  destruct (group !! _); [apply read_only_ret|apply read_only_raise].
Qed.

Lemma read_only_get_layer r : read_only (get_layer r).
Proof. intros w. unfold get_layer. by destruct (layers w !! r). Qed.

Lemma read_only_get_connective r : read_only (get_connective r).
Proof. intros w. unfold get_connective. by destruct (connectives w !! r). Qed.

Lemma read_only_get_mob m : read_only (get_mob m).
Proof.
  destruct m; cbn [get_mob]; apply read_only_bind; intros;
    auto using read_only_get_layer, read_only_get_connective, read_only_ret.
Qed.

Lemma get_mob_returns_live m w x w' :
  get_mob m w = (Returns x, w') -> live w m.
Proof.
  destruct m as [r|r]; cbn; unfold bind, get_layer, get_connective.
  - destruct (layers w !! r) eqn:Hr; [|done].
    intros _. by apply lookup_lt_Some in Hr.
  - destruct (connectives w !! r) eqn:Hr; [|done].
    intros _. by apply lookup_lt_Some in Hr.
Qed.

(** The loop of [_create_override] gets to its end only if every member it
    visits is in the store. *)
Lemma create_loop_returns ms acc w animations w' :
  for_fold ms (fun layer animations =>
                 let! animation := new_Create layer in
                 ret (animations ++ [animation])) acc w
  = (Returns animations, w') ->
  Forall (live w) ms.
Proof.
  revert acc. induction ms as [|m ms IH]; intros acc; [constructor|].
  cbn [for_fold]. unfold bind at 1 2, new_Create. unfold bind at 1.
  pose proof (read_only_get_mob m w) as Hw.
  destruct (get_mob m w) as [[x|e] w1] eqn:Hm; cbn in Hw; subst w1; [|done].
  cbn [ret]. intros Hrun. constructor; [by eapply get_mob_returns_live|].
  by eapply IH.
Qed.

(** X13. The options [edge_color], [layer_spacing] and
    [animation_dot_color] are stored on the diagram and reach nothing else:
    with other values for them the constructor has the same outcome and
    leaves the same store, the layout and the connective layers included;
    the diagram it returns differs in these three attributes only. *)
Theorem construction_ignores_unused_options ls ec lsp adc ec' lsp' adc' ew dr w :
  NeuralNetwork_init ls ec' lsp' adc' ew dr w
  = (map_outcome (with_options ec' lsp' adc')
                 (NeuralNetwork_init ls ec lsp adc ew dr w).1,
     (NeuralNetwork_init ls ec lsp adc ew dr w).2).
Proof.
  unfold NeuralNetwork_init. cbv zeta.
  set (self := mkNeuralNetwork (VGroup ls) ew ec lsp adc dr [] []).
  change (_place_layers (mkNeuralNetwork (VGroup ls) ew ec' lsp' adc' dr [] []))
    with (_place_layers self).
  change (_construct_connective_layers
            (mkNeuralNetwork (VGroup ls) ew ec' lsp' adc' dr [] []))
    with (_construct_connective_layers self).
  unfold bind.
  destruct (_place_layers self w) as [[[]|e] w1]; [|done].
  destruct (_construct_connective_layers self w1) as [[[conn all]|e] w2]; [|done].
  destruct (group_move_to all ORIGIN w2) as [[[]|e] w3]; done.
Qed.

(** X14. The forward-pass method reads the store and never writes it,
    whether it returns the animation or raises, on any diagram and any
    store; and its argument [passing_flash] has no effect on what it
    returns. *)
Theorem forward_pass_is_read_only (self : NeuralNetwork) run_time
    passing_flash w :
  (make_forward_pass_animation self run_time passing_flash w).2 = w
  /\ make_forward_pass_animation self run_time passing_flash w
     = make_forward_pass_animation self run_time None w.
Proof.
  split; [|done]. revert w. fold (read_only (make_forward_pass_animation
                                               self run_time passing_flash)).
  unfold make_forward_pass_animation. cbv zeta.
  apply read_only_bind.
  - apply read_only_for_fold. intros [layer_index layer] acc.
    apply read_only_bind.
    { apply read_only_bind; [apply read_only_get_layer|].
      intros; apply read_only_ret. }
    intros a. apply read_only_bind; [apply read_only_getitem|].
    intros c. apply read_only_bind; [|intros; apply read_only_ret].
    apply read_only_bind; [apply read_only_get_connective|].
    intros; apply read_only_ret.
  - intros anims. apply read_only_bind; [apply read_only_getitem|].
    intros r. apply read_only_bind; [|intros; apply read_only_ret].
    apply read_only_bind; [apply read_only_get_layer|].
    intros; apply read_only_ret.
Qed.

(** X15. The [Create] override reads the store and never writes it, on any
    diagram and any store, and it returns its animation exactly when every
    element of the display sequence is an object of the store. *)
Theorem create_returns_iff_display_is_live (self : NeuralNetwork) w :
  (_create_override self w).2 = w
  /\ ((exists g, _create_override self w = (Returns g, w))
      <-> Forall (live w) (all_layers self)).
Proof.
  split; [|split].
  - revert w. fold (read_only (_create_override self)).
    unfold _create_override. apply read_only_bind; [|intros; apply read_only_ret].
    apply read_only_for_fold. intros m acc.
    apply read_only_bind; [|intros; apply read_only_ret].
    unfold new_Create.
    apply read_only_bind; [apply read_only_get_mob|intros; apply read_only_ret].
  - intros [g Hg]. unfold _create_override in Hg. unfold bind at 1 in Hg.
    match type of Hg with
    | context [for_fold ?ms ?b ?a ?w0] =>
        destruct (for_fold ms b a w0) as [[animations|e] w1] eqn:Hloop
    end; [|done].
    by eapply create_loop_returns.
  - intros Hlive.
    destruct (create_override_spec self w Hlive) as (animations & Hrun & _).
    eexists. exact Hrun.
Qed.

End Methods.

(** ** Examples on the sample scenes *)

Lemma chain_three w :
  length (layers w) = 3 -> chain w [0; 1; 2].
Proof.
  intros H. split.
  - apply (NoDup_seq 0 3).
  - rewrite H. repeat constructor.
Defined.

(** C3 on the scene image, feed-forward, feed-forward: two connective layers
    and the display sequence L0, C0, L1, C1, L2. *)
Lemma connectives_bridge_adjacent_layers_witness :
  exists self w',
    NeuralNetwork_init 14 sample_connective_mob sample_connective_mob
      [0; 1; 2] WHITE 0.8 RED 1.5 0.03 supported_scene = (Returns self, w')
    /\ length (connective_layers self) = 2
    /\ all_layers self
       = interleave (LayerRef <$> [0; 1; 2])
                    (ConnectiveRef <$> connective_layers self).
Proof.
  destruct (connectives_bridge_adjacent_layers 14 sample_connective_mob
              sample_connective_mob [0; 1; 2] WHITE 0.8 RED 1.5 0.03
              supported_scene)
    as (self & w' & Hinit & _ & Hlen & _ & Hall).
  - by apply chain_three.
  - done.
  - repeat constructor; by vm_compute.
  - exists self, w'. split; [exact Hinit|]. split; [exact Hlen|exact Hall].
Defined.

(** C4 on the scene feed-forward, image, feed-forward: the first adjacency is
    reported and skipped. *)
Lemma unsupported_adjacency_is_skipped_witness :
  exists self w' messages,
    NeuralNetwork_init 14 sample_connective_mob sample_connective_mob
      [0; 1; 2] WHITE 0.8 RED 1.5 0.03 mixed_scene = (Returns self, w')
    /\ warnings w' = warnings mixed_scene ++ messages
    /\ ("Warning: unimplemented connection for layer types: "
          +:+ type_repr (layer_class (sample_feed_forward 0 1)) +:+ " and "
          +:+ type_repr (layer_class (sample_image 1 2))) ∈ messages
    /\ length (connective_layers self) < 2
    /\ last (all_layers self) = Some (LayerRef 2).
Proof.
  destruct (unsupported_adjacency_is_skipped 14 sample_connective_mob
              sample_connective_mob [0; 1; 2] WHITE 0.8 RED 1.5 0.03
              mixed_scene 0 0 1 (sample_feed_forward 0 1) (sample_image 1 2) 2)
    as (self & w' & messages & Hinit & Hw & Hm & _ & Hlen & Hlast);
    [by apply chain_three|reflexivity..|].
  exists self, w', messages.
  split; [exact Hinit|]. split; [exact Hw|]. split; [exact Hm|].
  split; [exact Hlen|exact Hlast].
Defined.


(** C2 on the same scene, on a canvas of width 14: the image layer, of width
    2, ends 0.7 + 0.5 + 1 to the right of the first layer, of width 1. *)
Lemma layout_spacing_witness :
  exists w' lp lc,
    _place_layers 14 (sample_network [0; 1; 2]) mixed_scene = (Returns tt, w')
    /\ layers w' !! 0 = Some lp /\ layers w' !! 1 = Some lc
    /\ peq (center (layer_mob lc))
           (padd (center (layer_mob lp)) (mkPoint (14 * 0.05 + (1 / 2 + 2 / 2)) 0 0))
    /\ (1 / 2 + 2 / 2 <= px (center (layer_mob lc)) - px (center (layer_mob lp)))%Q.
Proof.
  destruct (layout_spacing 14 (sample_network [0; 1; 2]) mixed_scene)
    as (w' & Hrun & _ & Hnext); [by apply chain_three|].
  destruct (Hnext 0 0 1 (sample_feed_forward 0 1) (sample_image 1 2)
              eq_refl eq_refl eq_refl eq_refl)
    as (lp & lc & Hlp & Hlc & Hpos & Hsep).
  exists w', lp, lc. split; [exact Hrun|]. split; [exact Hlp|].
  split; [exact Hlc|]. split; [exact Hpos|]. apply Hsep. by vm_compute.
Defined.

(** C9, amended, on the same scene: the first layer stays where it was, and
    the third layer, whose own row was 2, ends on row 0 with render depth
    2. *)
Lemma layout_aligns_rows_witness :
  exists w' l0 l,
    _place_layers 14 (sample_network [0; 1; 2]) mixed_scene = (Returns tt, w')
    /\ layers w' !! 0 = Some l0
    /\ center (layer_mob l0) = center (layer_mob (sample_feed_forward 0 1))
    /\ layers w' !! 2 = Some l
    /\ z_index (layer_mob l) = 2%Z
    /\ (py (center (layer_mob l)) == 0)%Q.
Proof.
  destruct (layout_aligns_rows 14 (sample_network [0; 1; 2]) mixed_scene)
    as (w' & Hrun & _ & Hfirst & Hrows); [by apply chain_three|].
  destruct (Hfirst 0 (sample_feed_forward 0 1) eq_refl eq_refl)
    as (l0 & Hl0 & Hc0).
  destruct (Hrows 2 2 0 (sample_feed_forward 0 1) eq_refl eq_refl eq_refl)
    as (l & Hl & Hd & Hy & _).
  exists w', l0, l. split; [exact Hrun|]. split; [exact Hl0|].
  split; [exact Hc0|]. split; [exact Hl|]. split; [exact Hd|exact Hy].
Defined.

(** C9 as stated fails on the same scene: the image layer starts on row 1 and
    the layout moves it to row 0. *)
Lemma layout_keeps_rows_counterexample :
  ~ layout_keeps_rows 14 (sample_network [0; 1; 2]) mixed_scene.
Proof.
  intros H.
  set (out := _place_layers 14 (sample_network [0; 1; 2]) mixed_scene).
  assert (out = (Returns tt, out.2)) as Hrun by (by vm_compute).
  eassert (layers out.2 !! 1 = Some _) as Hl by (vm_compute; reflexivity).
  edestruct (H out.2 Hrun 1 (sample_image 1 2)) as [Hy _];
    [apply list_elem_of_further, list_elem_of_here|reflexivity|exact Hl|].
  by vm_compute in Hy.
Qed.

(** C1 on the same scene: construction succeeds with one connective layer
    for two adjacencies, and the forward pass raises. *)
Lemma forward_pass_raises_after_skip_witness :
  exists self w',
    NeuralNetwork_init 14 sample_connective_mob sample_connective_mob
      [0; 1; 2] WHITE 0.8 RED 1.5 0.03 mixed_scene = (Returns self, w')
    /\ make_forward_pass_animation self None None w' = (Raises IndexError, w').
Proof.
  destruct (forward_pass_raises_after_skip 14 sample_connective_mob
              sample_connective_mob [0; 1; 2] WHITE 0.8 RED 1.5 0.03
              mixed_scene 0 0 1)
    as (self & w' & Hinit & _ & Hraise); [by apply chain_three|reflexivity..|].
  exists self, w'. split; [exact Hinit|apply Hraise].
Defined.

(** On that scene the only connective layer of the diagram is the one built
    for the second adjacency, although it is stored at index 0. *)
Example mixed_scene_connective :
  exists self w' c,
    NeuralNetwork_init 14 sample_connective_mob sample_connective_mob
      [0; 1; 2] WHITE 0.8 RED 1.5 0.03 mixed_scene = (Returns self, w')
    /\ connective_layers self = [0]
    /\ connectives w' !! 0 = Some c
    /\ conn_kind c = ImageToFeedForward
    /\ input_layer c = 1 /\ output_layer c = 2.
Proof.
  set (out := NeuralNetwork_init 14 sample_connective_mob sample_connective_mob
                [0; 1; 2] WHITE 0.8 RED 1.5 0.03 mixed_scene).
  vm_compute in out. subst out.
  eexists _, _, _. split; [reflexivity|]. split; [reflexivity|].
  split; [reflexivity|]. split; [reflexivity|]. split; reflexivity.
Qed.

(** C6 on the scene with supported adjacencies: five sub-animations, run
    time 10 by default. *)
Lemma forward_pass_duration_is_requested_witness :
  exists self w' animations,
    NeuralNetwork_init 14 sample_connective_mob sample_connective_mob
      [0; 1; 2] WHITE 0.8 RED 1.5 0.03 supported_scene = (Returns self, w')
    /\ make_forward_pass_animation self None None w'
       = (Returns (AnimationGroup animations 10 1), w')
    /\ length animations = 5.
Proof.
  destruct (forward_pass_duration_is_requested 14 sample_connective_mob
              sample_connective_mob [0; 1; 2] WHITE 0.8 RED 1.5 0.03
              supported_scene)
    as (self & w' & Hinit & Hpass); [by apply chain_three|done|].
  destruct (Hpass None None) as [_ Htotal].
  destruct Htotal as (animations & Hrun & Hlen);
    [reflexivity|repeat constructor; by vm_compute|].
  exists self, w', animations. split; [exact Hinit|]. split; [exact Hrun|exact Hlen].
Defined.

(** C7 on the same scene. *)
Lemma create_is_sequential_witness :
  exists self w' animations run_time,
    NeuralNetwork_init 14 sample_connective_mob sample_connective_mob
      [0; 1; 2] WHITE 0.8 RED 1.5 0.03 supported_scene = (Returns self, w')
    /\ _create_override self w'
       = (Returns (AnimationGroup animations run_time 1), w')
    /\ length animations = length (all_layers self)
    /\ (Forall (fun a => (0 <= get_run_time a)%Q) animations ->
        (run_time == sum_run_times animations)%Q).
Proof.
  destruct (create_is_sequential 14 sample_connective_mob sample_connective_mob
              [0; 1; 2] WHITE 0.8 RED 1.5 0.03 supported_scene)
    as (self & w' & animations & run_time & Hinit & Hrun & Hall & _ & Hsum);
    [by apply chain_three|done|].
  exists self, w', animations, run_time. split; [exact Hinit|].
  split; [exact Hrun|]. split; [|exact Hsum].
  symmetry. exact (Forall2_length _ _ _ Hall).
Defined.

(** C10 on the node counts 5, 3, 5 of the module's docstring. *)
Lemma feed_forward_network_witness :
  exists self w',
    FeedForwardNeuralNetwork_init 14 sample_connective_mob sample_connective_mob
      sample_layer_mob [5; 3; 5]%Z 0.08 BLUE no_kwargs (mkWorld [] [] [])
    = (Returns self, w')
    /\ input_layers self = [0; 1; 2]
    /\ length (connective_layers self) = 2
    /\ warnings w' = [].
Proof.
  destruct (feed_forward_network 14 sample_connective_mob sample_connective_mob
              sample_layer_mob [5; 3; 5]%Z 0.08 BLUE no_kwargs (mkWorld [] [] []))
    as (self & w' & Hinit & Hin & _ & Hlen & _ & Hw); [done|].
  exists self, w'. split; [exact Hinit|]. split; [exact Hin|].
  split; [exact Hlen|exact Hw].
Defined.

(** ** The further properties on the sample scenes *)

(** X1 on the scene feed-forward, image, feed-forward: one connective layer
    and one message for the two adjacencies. *)
Lemma every_adjacency_is_connected_or_reported_witness :
  exists self w',
    NeuralNetwork_init 14 sample_connective_mob sample_connective_mob
      [0; 1; 2] WHITE 0.8 RED 1.5 0.03 mixed_scene = (Returns self, w')
    /\ length (connective_layers self)
       + (length (warnings w') - length (warnings mixed_scene)) = 2.
Proof.
  destruct (every_adjacency_is_connected_or_reported 14 sample_connective_mob
              sample_connective_mob [0; 1; 2] WHITE 0.8 RED 1.5 0.03 mixed_scene)
    as (self & w' & Hinit & _ & _ & Hsum); [by apply chain_three|done|].
  exists self, w'. split; [exact Hinit|exact Hsum].
Defined.

(** X2 on the same scene, where an adjacency is skipped. *)
Lemma display_sequence_holds_chain_and_connectives_witness :
  exists self w',
    NeuralNetwork_init 14 sample_connective_mob sample_connective_mob
      [0; 1; 2] WHITE 0.8 RED 1.5 0.03 mixed_scene = (Returns self, w')
    /\ layer_refs (all_layers self) = [0; 1; 2]
    /\ connective_refs (all_layers self) = connective_layers self
    /\ NoDup (all_layers self)
    /\ length (all_layers self) = 3 + length (connective_layers self).
Proof.
  destruct (display_sequence_holds_chain_and_connectives 14
              sample_connective_mob sample_connective_mob [0; 1; 2] WHITE 0.8
              RED 1.5 0.03 mixed_scene)
    as (self & w' & Hinit & HL & HC & Hnd & Hlen); [by apply chain_three|done|].
  exists self, w'. split; [exact Hinit|]. split; [exact HL|].
  split; [exact HC|]. split; [exact Hnd|exact Hlen].
Defined.

(** X3 on a diagram of the last two layers of the same scene: the first
    layer of the store is not in the chain and stays as it was. *)
Lemma construction_leaves_other_objects_alone_witness :
  exists self w',
    NeuralNetwork_init 14 sample_connective_mob sample_connective_mob
      [1; 2] WHITE 0.8 RED 1.5 0.03 mixed_scene = (Returns self, w')
    /\ layers w' !! 0 = Some (sample_feed_forward 0 1)
    /\ take 0 (connectives w') = []
    /\ take 0 (warnings w') = [].
Proof.
  destruct (construction_leaves_other_objects_alone 14 sample_connective_mob
              sample_connective_mob [1; 2] WHITE 0.8 RED 1.5 0.03 mixed_scene)
    as (self & w' & Hinit & HL & HC & HW).
  - split; [apply (NoDup_seq 1 2)|repeat constructor].
  - done.
  - exists self, w'. split; [exact Hinit|]. split; [|split; [exact HC|exact HW]].
    apply (HL 0). intros [Hlo _]%(elem_of_seq 1 2 0). lia.
Defined.

(** X4 on the same scene: the third layer ends at least 1/2 + 1/2 to the
    right of the first. *)
Lemma layout_separates_every_pair_witness :
  exists w' lp lc,
    _place_layers 14 (sample_network [0; 1; 2]) mixed_scene = (Returns tt, w')
    /\ layers w' !! 0 = Some lp /\ layers w' !! 2 = Some lc
    /\ (1 / 2 + 1 / 2 <= px (center (layer_mob lc)) - px (center (layer_mob lp)))%Q.
Proof.
  destruct (layout_separates_every_pair 14 (sample_network [0; 1; 2]) mixed_scene)
    as (w' & Hrun & Hsep).
  - by apply chain_three.
  - by vm_compute.
  - intros r l _ Hl.
    destruct r as [|[|[|r]]]; [injection Hl as <-; by vm_compute..|discriminate Hl].
  - destruct (Hsep 0 2 0 2 (sample_feed_forward 0 1) (sample_feed_forward 2 1))
      as (lp & lc & Hlp & Hlc & Hle); [repeat constructor|reflexivity..|].
    exists w', lp, lc. split; [exact Hrun|]. split; [exact Hlp|].
    split; [exact Hlc|exact Hle].
Defined.

(** X5 on the same scene. *)
Lemma layout_is_idempotent_witness :
  exists w' w'',
    _place_layers 14 (sample_network [0; 1; 2]) mixed_scene = (Returns tt, w')
    /\ _place_layers 14 (sample_network [0; 1; 2]) w' = (Returns tt, w'')
    /\ Forall2 layer_equiv (layers w') (layers w'')
    /\ connectives w'' = connectives w'
    /\ warnings w'' = warnings w'.
Proof.
  destruct (layout_is_idempotent 14 (sample_network [0; 1; 2]) mixed_scene)
    as (w' & w'' & H1 & H2 & HL & HC & HW); [by apply chain_three|].
  exists w', w''. split; [exact H1|]. split; [exact H2|].
  split; [exact HL|]. split; [exact HC|exact HW].
Defined.

(** X6 on the same scene: in the constructed diagram the image layer, of
    width 2, is 0.7 + 0.5 + 1 to the right of the first layer, of width 1. *)
Lemma spacing_survives_recentring_witness :
  exists self w' lp lc,
    NeuralNetwork_init 14 sample_connective_mob sample_connective_mob
      [0; 1; 2] WHITE 0.8 RED 1.5 0.03 mixed_scene = (Returns self, w')
    /\ layers w' !! 0 = Some lp /\ layers w' !! 1 = Some lc
    /\ peq (center (layer_mob lc))
           (padd (center (layer_mob lp)) (mkPoint (14 * 0.05 + (1 / 2 + 2 / 2)) 0 0)).
Proof.
  destruct (spacing_survives_recentring 14 sample_connective_mob
              sample_connective_mob [0; 1; 2] WHITE 0.8 RED 1.5 0.03 mixed_scene)
    as (self & w' & Hinit & Hnext); [by apply chain_three|done|].
  destruct (Hnext 0 0 1 (sample_feed_forward 0 1) (sample_image 1 2)
              eq_refl eq_refl eq_refl eq_refl)
    as (lp & lc & Hlp & Hlc & _ & _ & Hpos).
  exists self, w', lp, lc. split; [exact Hinit|]. split; [exact Hlp|].
  split; [exact Hlc|exact Hpos].
Defined.

(** X7 on the scene with supported adjacencies. *)
Lemma diagram_is_centred_at_origin_witness :
  exists self w' c,
    NeuralNetwork_init 14 sample_connective_mob sample_connective_mob
      [0; 1; 2] WHITE 0.8 RED 1.5 0.03 supported_scene = (Returns self, w')
    /\ group_get_center (all_layers self) w' = (Returns c, w')
    /\ peq c ORIGIN.
Proof.
  destruct (diagram_is_centred_at_origin 14 sample_connective_mob
              sample_connective_mob [0; 1; 2] WHITE 0.8 RED 1.5 0.03
              supported_scene)
    as (self & w' & c & Hinit & Hc & Ho); [by apply chain_three|done|].
  exists self, w', c. split; [exact Hinit|]. split; [exact Hc|exact Ho].
Defined.

(** X8 on the same scene. *)
Lemma forward_pass_follows_display_order_witness :
  exists self w' animations,
    NeuralNetwork_init 14 sample_connective_mob sample_connective_mob
      [0; 1; 2] WHITE 0.8 RED 1.5 0.03 supported_scene = (Returns self, w')
    /\ Forall2 (forward_pass_of w') (all_layers self) animations
    /\ make_forward_pass_animation self None None w'
       = (Returns (AnimationGroup animations 10 1), w').
Proof.
  destruct (forward_pass_follows_display_order 14 sample_connective_mob
              sample_connective_mob [0; 1; 2] WHITE 0.8 RED 1.5 0.03
              supported_scene)
    as (self & w' & animations & Hinit & Hall & Hrun);
    [by apply chain_three|done|repeat constructor; by vm_compute|].
  exists self, w', animations. split; [exact Hinit|].
  split; [exact Hall|exact (Hrun None None eq_refl)].
Defined.

(** X9 on the image layer of the scene feed-forward, image, feed-forward. *)
Lemma single_layer_diagram_witness :
  exists self w' l,
    NeuralNetwork_init 14 sample_connective_mob sample_connective_mob
      [1] WHITE 0.8 RED 1.5 0.03 mixed_scene = (Returns self, w')
    /\ all_layers self = [LayerRef 1]
    /\ layers w' !! 1 = Some l
    /\ peq (center (layer_mob l)) ORIGIN
    /\ make_forward_pass_animation self None None w'
       = (Returns
            (AnimationGroup
               [ForwardPass (LayerRef 1) (forward_pass_run_time (layer_mob l))]
               10 1),
          w').
Proof.
  destruct (single_layer_diagram 14 sample_connective_mob sample_connective_mob
              1 WHITE 0.8 RED 1.5 0.03 mixed_scene)
    as (self & w' & l & Hinit & _ & Hall & _ & Hl & Ho & Hpass);
    [vm_compute; lia|].
  exists self, w', l. split; [exact Hinit|]. split; [exact Hall|].
  split; [exact Hl|]. split; [exact Ho|exact (Hpass None None eq_refl)].
Defined.

(** X11 on the node counts 3, 5, 3, built next to the three layers of a
    scene. *)
Lemma feed_forward_network_is_fresh_witness :
  exists self w',
    FeedForwardNeuralNetwork_init 14 sample_connective_mob sample_connective_mob
      sample_layer_mob [3; 5; 3]%Z 0.08 BLUE no_kwargs mixed_scene
    = (Returns self, w')
    /\ take 3 (layers w') = layers mixed_scene
    /\ edge_width self = 1.5%Q.
Proof.
  destruct (feed_forward_network_is_fresh 14 sample_connective_mob
              sample_connective_mob sample_layer_mob [3; 5; 3]%Z 0.08 BLUE
              no_kwargs mixed_scene)
    as (self & w' & Hinit & HL & _ & Hew & _); [done|].
  exists self, w'. split; [exact Hinit|]. split; [exact HL|exact Hew].
Defined.

(** X12 on the scene feed-forward, image, feed-forward: the first adjacency
    is unsupported, so no forward-pass animation is returned. *)
Lemma forward_pass_returns_iff_all_supported_witness :
  exists self w',
    NeuralNetwork_init 14 sample_connective_mob sample_connective_mob
      [0; 1; 2] WHITE 0.8 RED 1.5 0.03 mixed_scene = (Returns self, w')
    /\ ~ exists g, make_forward_pass_animation self None None w' = (Returns g, w').
Proof.
  destruct (forward_pass_returns_iff_all_supported 14 sample_connective_mob
              sample_connective_mob [0; 1; 2] WHITE 0.8 RED 1.5 0.03 mixed_scene)
    as (self & w' & Hinit & Hiff); [by apply chain_three|done|].
  exists self, w'. split; [exact Hinit|].
  intros Hg. apply (Hiff None None eq_refl) in Hg.
  apply Forall_cons_1 in Hg as [Hg _]. by apply Hg.
Defined.
